(** * rpc-proxy: health probing and weighted failover forwarding

    A shallow embedding of [internal/types/types.go],
    [internal/health/checker.go], [internal/health/multi_chain_checker.go]
    and [internal/proxy/server.go].

    Conventions.
    - Go [int] and [int64] are 64-bit two's complement; they are carried as
      [Z] and every arithmetic result is passed through [wrap64].
    - A [*types.RPCEndpoint] is a location [loc] into a heap
      [gmap loc RPCEndpoint]; slices of pointers are [list loc], so two
      slices holding the same pointer see the same endpoint.
    - Every method of [RPCEndpoint] takes the endpoint's mutex for its whole
      body, so each call is one atomic step and is embedded as a function
      on the struct.
    - [time.Now()] and [time.Since(start)] are readings handed in by the
      caller of the model. *)

From Stdlib Require Import ZArith String Ascii.
From stdpp Require Import gmap strings list sorting pretty.

Local Open Scope string_scope.
Local Open Scope list_scope.
Local Open Scope Z_scope.

(** ** Machine integers *)

Definition wrap64 (z : Z) : Z :=
  (z + 2 ^ 63) mod 2 ^ 64 - 2 ^ 63.

Definition maxInt64 : Z := 2 ^ 63 - 1.

(** ** Decoded JSON values (what [encoding/json] stores in an [interface{}]) *)

#[warnings="-register-all"]
Inductive JSON : Type :=
| JNull
| JBool (b : bool)
| JNumber (literal : string)
| JString (s : string)
| JArray (items : list JSON)
| JObject (members : list (string * JSON)).

(** ** package strconv (Go standard library)

    [ParseUint] and [ParseInt] follow the library's source for an explicit
    base between 2 and 36 and a bit size of 64: no base prefix and no
    underscores are accepted, an optional sign is picked off by [ParseInt]
    only. *)
Module strconv.

Inductive NumError := ErrSyntax | ErrRange.

Definition maxUint64 : Z := 2 ^ 64 - 1.

(** [lower(c) = c | ('x' - 'X')] *)
Definition lower (c : Z) : Z := Z.lor c 32.

Definition digit (c : ascii) : option Z :=
  let n := Z.of_N (N_of_ascii c) in
  if (48 <=? n) && (n <=? 57) then Some (n - 48)
  else if (97 <=? lower n) && (lower n <=? 122) then Some (lower n - 97 + 10)
  else None.

(** The digit loop of [ParseUint]; [n] is the value accumulated so far. *)
Fixpoint parseDigits (base : Z) (s : string) (n : Z) : Z * option NumError :=
  match s with
  | EmptyString => (n, None)
  | String c rest =>
      match digit c with
      | None => (0, Some ErrSyntax)
      | Some d =>
          if base <=? d then (0, Some ErrSyntax)
          else if (maxUint64 / base + 1) <=? n then (maxUint64, Some ErrRange)
          else
            let n1 := n * base + d in
            if maxUint64 <? n1 then (maxUint64, Some ErrRange)
            else parseDigits base rest n1
      end
  end.

Definition ParseUint (s : string) (base : Z) : Z * option NumError :=
  match s with
  | EmptyString => (0, Some ErrSyntax)
  | _ => parseDigits base s 0
  end.

Definition ParseInt (s : string) (base : Z) : Z * option NumError :=
  match s with
  | EmptyString => (0, Some ErrSyntax)
  | String c rest =>
      let '(neg, s1) :=
        if Ascii.eqb c "+" then (false, rest)
        else if Ascii.eqb c "-" then (true, rest)
        else (false, s) in
      let '(un, err) := ParseUint s1 base in
      match err with
      | Some ErrSyntax => (0, Some ErrSyntax)
      | _ =>
          let cutoff := 2 ^ 63 in
          if negb neg && (cutoff <=? un) then (cutoff - 1, Some ErrRange)
          else if neg && (cutoff <? un) then (- cutoff, Some ErrRange)
          else (if neg then - un else un, None)
      end
  end.

(** [fmt.Sprintf("%d", n)] for an [int64]. *)
Definition FormatInt (n : Z) : string := pretty n.

End strconv.

(** ** package strings *)
Module strings.

Definition HasPrefix (s prefix : string) : bool := String.prefix prefix s.

(** [s[n:]] for [n <= len(s)]. *)
Fixpoint from (n : nat) (s : string) : string :=
  match n, s with
  | O, _ => s
  | S n', String _ rest => from n' rest
  | S _, EmptyString => EmptyString
  end.

End strings.

(** ** package types *)
Module types.

(** The address of an endpoint struct. *)
Definition loc := nat.

(** The fields of [types.RPCEndpoint] that the modelled code reads or
    writes, with the lock [mu] and the row timestamps [CreatedAt] and
    [UpdatedAt] left out. [LastCheck] is a clock reading. *)
Record RPCEndpoint := mkRPCEndpoint {
  ID : Z;
  Name : string;
  URL : string;
  Weight : Z;
  Enabled : bool;
  ChainID : Z;
  ChainName : string;
  Healthy : bool;
  LastCheck : Z;
  ResponseTime : Z;
  BlockNumber : string;
  FailCount : Z
}.

Definition SetHealthy (now : Z) (healthy : bool) (e : RPCEndpoint) : RPCEndpoint :=
  {| ID := ID e; Name := Name e; URL := URL e; Weight := Weight e;
     Enabled := Enabled e; ChainID := ChainID e; ChainName := ChainName e;
     Healthy := healthy;
     LastCheck := now;
     ResponseTime := ResponseTime e;
     BlockNumber := BlockNumber e;
     FailCount := if healthy then 0 else wrap64 (FailCount e + 1) |}.

Definition IsHealthy (e : RPCEndpoint) : bool := Healthy e.

Definition GetFailCount (e : RPCEndpoint) : Z := FailCount e.

Definition SetResponseTime (rt : Z) (e : RPCEndpoint) : RPCEndpoint :=
  {| ID := ID e; Name := Name e; URL := URL e; Weight := Weight e;
     Enabled := Enabled e; ChainID := ChainID e; ChainName := ChainName e;
     Healthy := Healthy e;
     LastCheck := LastCheck e;
     ResponseTime := rt;
     BlockNumber := BlockNumber e;
     FailCount := FailCount e |}.

Definition SetBlockNumber (bn : string) (e : RPCEndpoint) : RPCEndpoint :=
  {| ID := ID e; Name := Name e; URL := URL e; Weight := Weight e;
     Enabled := Enabled e; ChainID := ChainID e; ChainName := ChainName e;
     Healthy := Healthy e;
     LastCheck := LastCheck e;
     ResponseTime := ResponseTime e;
     BlockNumber := bn;
     FailCount := FailCount e |}.

(** Returns the endpoint after the increment and the new count. *)
Definition IncrementFailCount (e : RPCEndpoint) : RPCEndpoint * Z :=
  let fc := wrap64 (FailCount e + 1) in
  ({| ID := ID e; Name := Name e; URL := URL e; Weight := Weight e;
      Enabled := Enabled e; ChainID := ChainID e; ChainName := ChainName e;
      Healthy := Healthy e;
      LastCheck := LastCheck e;
      ResponseTime := ResponseTime e;
      BlockNumber := BlockNumber e;
      FailCount := fc |}, fc).

Record JSONRPCError := mkJSONRPCError {
  Code : Z;
  Message : string;
  Data : option JSON
}.

(** [Result] and [Error] are [omitempty]; [RespID = None] is Go's [nil],
    encoded as [null]. *)
Record JSONRPCResponse := mkJSONRPCResponse {
  Jsonrpc : string;
  Result : option JSON;
  Error : option JSONRPCError;
  RespID : option JSON
}.

(** [types.Chain]; its [ID], [ChainID] and [Name] are called [ChainRowID],
    [ChainNumber] and [ChainShortName] here, the plain names being taken by
    the endpoint's fields. No modelled function reads a chain's fields. *)
Record Chain := mkChain {
  ChainRowID : Z;
  ChainNumber : Z;
  ChainShortName : string;
  RPCPath : string;
  IsTestnet : bool;
  IsEnabled : bool
}.

End types.
Export types.

(** What [heap !!! p] yields for a location that holds nothing. The
    registry is built from locations of allocated endpoints, and Go would
    stop with a nil dereference otherwise. *)
#[global] Instance RPCEndpoint_inhabited : Inhabited RPCEndpoint :=
  populate (mkRPCEndpoint 0 "" "" 0 false 0 "" false 0 0 "" 0).

(** ** package net/http: what the proxy and the prober see of it *)
Module http.

Definition StatusOK : Z := 200.
Definition StatusMethodNotAllowed : Z := 405.

(** A header is a Go [map[string][]string]. *)
Definition Header := gmap string (list string).

(** An upstream response. [Decoded] is what
    [json.NewDecoder(resp.Body).Decode(&m)] yields for a
    [map[string]interface{}] target on this body: [None] when decoding
    fails, otherwise the members of the top-level object. *)
Record Response := mkResponse {
  StatusCode : Z;
  RespHeader : Header;
  Body : string;
  Decoded : option (gmap string JSON)
}.

End http.

(** ** package health *)
Module health.

Record HealthCheckConfig := mkHealthCheckConfig {
  Interval : Z;
  Timeout : Z;
  Retries : Z
}.

(** *** The single-chain [Checker] of [checker.go] *)

Definition markHealthy (now responseTime : Z) (blockNumber : string)
    (e : RPCEndpoint) : RPCEndpoint :=
  SetBlockNumber blockNumber (SetResponseTime responseTime (SetHealthy now true e)).

Definition markUnhealthy (config : HealthCheckConfig) (now responseTime : Z)
    (blockNumber : string) (e : RPCEndpoint) : RPCEndpoint :=
  let e := SetResponseTime responseTime e in
  let e := SetBlockNumber blockNumber e in
  let '(e, failCount) := IncrementFailCount e in
  if Retries config <=? failCount then SetHealthy now false e else e.

(** What one probe of [Checker.checkEndpoint] meets. [LegacyResp] carries
    the status code and what [Decode] yields for a
    [types.JSONRPCResponse] target ([None]: decode error). *)
Inductive LegacyProbe :=
| LegacyMarshalErr
| LegacyNewRequestErr
| LegacyDoErr
| LegacyResp (status : Z) (decoded : option JSONRPCResponse).

Definition checkEndpoint (config : HealthCheckConfig) (now responseTime : Z)
    (probe : LegacyProbe) (e : RPCEndpoint) : RPCEndpoint :=
  match probe with
  | LegacyMarshalErr | LegacyNewRequestErr | LegacyDoErr =>
      markUnhealthy config now 0 "" e
  | LegacyResp status decoded =>
      if negb (status =? http.StatusOK) then markUnhealthy config now responseTime "" e
      else match decoded with
           | None => markUnhealthy config now responseTime "" e
           | Some rpcResp =>
               match Error rpcResp with
               | Some _ => markUnhealthy config now responseTime "" e
               | None =>
                   match Result rpcResp with
                   | Some (JString blockNumber) =>
                       markHealthy now responseTime blockNumber e
                   | _ => markUnhealthy config now responseTime "" e
                   end
               end
           end
  end.

(** *** The [MultiChainChecker] of [multi_chain_checker.go] *)

Record ChainConfig := mkChainConfig {
  Chain : types.Chain;
  Endpoints : list loc
}.

(** [probers] lists the live [runChainHealthChecker] goroutines with the
    arguments they were started with; [cancelled] says that [mc.cancel]
    has been called. *)
Record MultiChainChecker := mkMultiChainChecker {
  chains : gmap string ChainConfig;
  healthConfig : HealthCheckConfig;
  isRunning : bool;
  cancelled : bool;
  probers : list (string * ChainConfig)
}.

Definition GetHealthyEndpoints (mc : MultiChainChecker)
    (heap : gmap loc RPCEndpoint) (chainName : string) : list loc :=
  match chains mc !! chainName with
  | None => []
  | Some chainConfig =>
      foldl (fun healthy endpoint =>
               if IsHealthy (heap !!! endpoint) then healthy ++ [endpoint]
               else healthy)
            [] (Endpoints chainConfig)
  end.

Definition GetAllEndpoints (mc : MultiChainChecker) (chainName : string) : list loc :=
  match chains mc !! chainName with
  | None => []
  | Some chainConfig => Endpoints chainConfig
  end.

Definition isNil (v : option JSON) : bool :=
  match v with
  | None | Some JNull => true
  | Some _ => false
  end.

(** [now] is the clock reading [SetHealthy] takes, [responseTime] is
    [time.Since(start).Milliseconds()]. *)
Definition processHealthCheckResponse (now responseTime : Z)
    (resp : http.Response) (e : RPCEndpoint) : RPCEndpoint * bool :=
  let e := SetResponseTime responseTime e in
  if negb (http.StatusCode resp =? http.StatusOK) then (SetHealthy now false e, true)
  else
    match http.Decoded resp with
    | None => (SetHealthy now false e, true)
    | Some jsonResp =>
        if negb (isNil (jsonResp !! "error")) then (SetHealthy now false e, true)
        else
          let invalid := (SetHealthy now false e, true) in
          match jsonResp !! "result" with
          | Some (JString blockHex) =>
              if strings.HasPrefix blockHex "0x" then
                match strconv.ParseInt (strings.from 2 blockHex) 16 with
                | (blockNum, None) =>
                    (SetHealthy now true
                       (SetBlockNumber (strconv.FormatInt blockNum) e), true)
                | (_, Some _) => invalid
                end
              else invalid
          | _ => invalid
          end
    end.

Inductive DoResult :=
| DoErr (err : string)
| DoOk (resp : http.Response).

(** What one pass over one endpoint meets, indexed by the attempt number:
    [ctxDone i] says that [ctx.Done()] wins the select before attempt [i],
    [Do i] is the result of [mc.client.Do(req)] at attempt [i], [now i]
    and [since i] are the clock readings taken while attempt [i] is
    handled (index [Retries] for the code after the loop). *)
Record Probe := mkProbe {
  marshalErr : bool;
  newRequestErr : bool;
  ctxDone : nat -> bool;
  Do : nat -> DoResult;
  now : nat -> Z;
  since : nat -> Z
}.

(** The retry loop of [checkEndpointHealth]: [fuel] iterations are left
    and [attempt] is the loop variable. *)
Fixpoint attempts (p : Probe) (fuel attempt : nat) (e : RPCEndpoint) : RPCEndpoint :=
  match fuel with
  | O =>
      (* All retries failed *)
      SetResponseTime (since p attempt) (SetHealthy (now p attempt) false e)
  | S fuel' =>
      if (0 <? attempt)%nat && ctxDone p attempt then SetHealthy (now p attempt) false e
      else
        match Do p attempt with
        | DoErr _ => attempts p fuel' (S attempt) e
        | DoOk resp =>
            let '(e', done) :=
              processHealthCheckResponse (now p attempt) (since p attempt) resp e in
            if done then e' else attempts p fuel' (S attempt) e'
        end
  end.

Definition checkEndpointHealth (config : HealthCheckConfig) (p : Probe)
    (e : RPCEndpoint) : RPCEndpoint :=
  if marshalErr p then SetHealthy (now p O) false e
  else if newRequestErr p then SetHealthy (now p O) false e
  else attempts p (Z.to_nat (Retries config)) O e.

(** One pass over a chain. The goroutines of one pass each work on the
    endpoint they were handed, so the pass is the composition of the
    per-endpoint checks, taken here in slice order. *)
Definition checkChainHealth (config : HealthCheckConfig) (world : loc -> Probe)
    (chainConfig : ChainConfig) (heap : gmap loc RPCEndpoint) : gmap loc RPCEndpoint :=
  foldl (fun heap endpoint =>
           if negb (Enabled (heap !!! endpoint)) then heap
           else alter (checkEndpointHealth config (world endpoint)) endpoint heap)
        heap (Endpoints chainConfig).

Definition Start (mc : MultiChainChecker) : MultiChainChecker :=
  if isRunning mc then mc
  else {| chains := chains mc; healthConfig := healthConfig mc;
          isRunning := true; cancelled := cancelled mc;
          probers := probers mc ++ map_to_list (chains mc) |}.

(** [mc.cancel()] then [mc.wg.Wait()]: every goroutine has returned. *)
Definition Stop (mc : MultiChainChecker) : MultiChainChecker :=
  if negb (isRunning mc) then mc
  else {| chains := chains mc; healthConfig := healthConfig mc;
          isRunning := false; cancelled := true;
          probers := [] |}.

Definition AddChain (chainName : string) (chainConfig : ChainConfig)
    (mc : MultiChainChecker) : MultiChainChecker :=
  {| chains := <[chainName := chainConfig]> (chains mc);
     healthConfig := healthConfig mc;
     isRunning := isRunning mc; cancelled := cancelled mc;
     probers := if isRunning mc then probers mc ++ [(chainName, chainConfig)]
                else probers mc |}.

Definition RemoveChain (chainName : string) (mc : MultiChainChecker) : MultiChainChecker :=
  {| chains := delete chainName (chains mc);
     healthConfig := healthConfig mc;
     isRunning := isRunning mc; cancelled := cancelled mc;
     probers := probers mc |}.

(** One turn of the loop of [runChainHealthChecker] in the goroutine
    started for [chainName], taken when its ticker fires: it runs
    [checkChainHealth] on the [chainConfig] it was started with, whatever
    [mc.chains] holds by then. The goroutine leaves its loop only through
    [mc.ctx.Done()]. *)
Definition proberPass (chainName : string) (world : loc -> Probe)
    (mc : MultiChainChecker) (heap : gmap loc RPCEndpoint) : gmap loc RPCEndpoint :=
  match list_find (fun g => g.1 = chainName) (probers mc) with
  | Some (_, (_, chainConfig)) =>
      if cancelled mc then heap
      else checkChainHealth (healthConfig mc) world chainConfig heap
  | None => heap
  end.

End health.

(** ** package proxy *)
Module proxy.
Import health.

(** The inbound request. [ReadAll] is what [io.ReadAll(r.Body)] returns:
    the bytes read and the error, if any, that stopped the read. *)
Record Request := mkRequest {
  Method : string;
  ReqHeader : http.Header;
  ContentLength : Z;
  ReadAll : string * option string
}.

Record UpstreamRequest := mkUpstreamRequest {
  upMethod : string;
  upURL : string;
  upHeader : http.Header;
  upBody : string
}.

(** The network as the proxy meets it. [newRequestErr url] is the error
    of [http.NewRequestWithContext] for [url]; [clientDo i req] is what
    [s.client.Do(req)] returns when the failover loop is at index [i]:
    an error string or a response. *)
Record Transport := mkTransport {
  newRequestErr : string -> option string;
  clientDo : nat -> UpstreamRequest -> string + http.Response
}.

(** One write to the [http.ResponseWriter]: raw bytes (what [io.Copy]
    moves over, possibly none), or a value handed to
    [json.NewEncoder(w).Encode]. *)
Inductive Chunk :=
| Raw (bytes : string)
| Encoded (v : JSONRPCResponse).

Record ResponseWriter := mkResponseWriter {
  wHeader : http.Header;
  wStatus : option Z;
  wBody : list Chunk
}.

(** The state a handler runs in: the endpoints behind the pointers, the
    checker it reads the registry from, the writer it answers on and the
    upstream calls issued so far, oldest first. *)
Record World := mkWorld {
  heap : gmap loc RPCEndpoint;
  checker : MultiChainChecker;
  w : ResponseWriter;
  wire : list UpstreamRequest
}.

(** A handler either returns or panics (Go's nil dereference or index out
    of range). *)
Inductive Outcome (A : Type) :=
| Done (a : A) (σ : World)
| Panic (σ : World).
Arguments Done {A} a σ.
Arguments Panic {A} σ.

Definition M (A : Type) := World -> Outcome A.

Definition ret {A} (a : A) : M A := fun σ => Done a σ.

Definition bind {A B} (m : M A) (k : A -> M B) : M B :=
  fun σ => match m σ with
           | Done a σ' => k a σ'
           | Panic σ' => Panic σ'
           end.

Definition panic {A} : M A := fun σ => Panic σ.

Definition final {A} (o : Outcome A) : World :=
  match o with
  | Done _ σ => σ
  | Panic σ => σ
  end.

Notation "'let*' x ':=' m 'in' k" := (bind m (fun x => k))
  (at level 10, x name, m at level 200, k at level 200).
Notation "'run' m 'then' k" := (bind m (fun _ => k))
  (at level 10, m at level 200, k at level 200).

Definition onWriter (f : ResponseWriter -> ResponseWriter) : M unit :=
  fun σ => Done tt {| heap := heap σ; checker := checker σ; w := f (w σ); wire := wire σ |}.

Definition headerSet (key value : string) : M unit :=
  onWriter (fun rw => {| wHeader := <[key := [value]]> (wHeader rw);
                         wStatus := wStatus rw; wBody := wBody rw |}).

Definition headerAdd (key value : string) : M unit :=
  onWriter (fun rw =>
              {| wHeader := <[key := default [] (wHeader rw !! key) ++ [value]]> (wHeader rw);
                 wStatus := wStatus rw; wBody := wBody rw |}).

Definition headerDel (key : string) : M unit :=
  onWriter (fun rw => {| wHeader := delete key (wHeader rw);
                         wStatus := wStatus rw; wBody := wBody rw |}).

(** Only the first [WriteHeader] counts. *)
Definition WriteHeader (code : Z) : M unit :=
  onWriter (fun rw => {| wHeader := wHeader rw;
                         wStatus := Some (default code (wStatus rw));
                         wBody := wBody rw |}).

(** A write before [WriteHeader] sends status 200 first. *)
Definition Write (c : Chunk) : M unit :=
  onWriter (fun rw => {| wHeader := wHeader rw;
                         wStatus := Some (default http.StatusOK (wStatus rw));
                         wBody := wBody rw ++ [c] |}).

(** [http.Error] of the standard library. *)
Definition httpError (error : string) (code : Z) : M unit :=
  run headerDel "Content-Length" then
  run headerSet "Content-Type" "text/plain; charset=utf-8" then
  run headerSet "X-Content-Type-Options" "nosniff" then
  run WriteHeader code then
  Write (Raw (error +:+ String "010"%char EmptyString)).

Definition writeErrorResponse (code : Z) (message : string) (data : option JSON) : M unit :=
  run headerSet "Content-Type" "application/json" then
  run WriteHeader http.StatusOK then
  let response :=
    {| Jsonrpc := "2.0";
       Result := None;
       Error := Some {| Code := code; Message := message; Data := data |};
       RespID := None |} in
  Write (Encoded response).

Definition copyResponse (resp : http.Response) : M unit :=
  run foldr (fun kv k =>
               foldr (fun value k' => run headerAdd kv.1 value then k') k kv.2)
            (ret tt) (map_to_list (http.RespHeader resp)) then
  run WriteHeader (http.StatusCode resp) then
  Write (Raw (http.Body resp)).

Definition getHealthyEndpoints (chainName : string) : M (list loc) :=
  fun σ => Done (GetHealthyEndpoints (checker σ) (heap σ) chainName) σ.

Definition readURL (endpoint : loc) : M string :=
  fun σ => Done (URL (heap σ !!! endpoint)) σ.

Definition readWeight (σ : World) (endpoint : loc) : Z :=
  Weight (heap σ !!! endpoint).

(** The body of the inner loop: the comparison of [s[j]] and [s[j+1]] and
    the swap [s[j], s[j+1] = s[j+1], s[j]]. [None] is Go's index out of
    range. *)
Definition swapStep (weight : loc -> Z) (j : nat) (s : list loc) : option (list loc) :=
  match s !! j, s !! (j + 1)%nat with
  | Some a, Some b =>
      Some (if weight a <? weight b then <[j := b]> (<[(j + 1)%nat := a]> s) else s)
  | _, _ => None
  end.

(** [for j := 0; j < len(s)-i-1; j++] *)
Definition innerLoop (weight : loc -> Z) (n i : nat) (s : list loc) : option (list loc) :=
  foldl (fun acc j => acc ≫= swapStep weight j) (Some s) (seq 0 (n - i - 1)).

(** [for i := 0; i < len(s)-1; i++] over a copy of the input. *)
Definition bubbleSort (weight : loc -> Z) (endpoints : list loc) : option (list loc) :=
  let n := length endpoints in
  foldl (fun acc i => acc ≫= innerLoop weight n i) (Some endpoints) (seq 0 (n - 1)).

Definition getSortedEndpointsByWeight (endpoints : list loc) : M (list loc) :=
  fun σ =>
    if (length endpoints =? 0)%nat then Done [] σ
    else match bubbleSort (readWeight σ) endpoints with
         | Some sortedEndpoints => Done sortedEndpoints σ
         | None => Panic σ
         end.

Definition send (i : nat) (t : Transport) (req : UpstreamRequest)
    : M (string + http.Response) :=
  fun σ => Done (clientDo t i req)
                {| heap := heap σ; checker := checker σ; w := w σ;
                   wire := wire σ ++ [req] |}.

(** The request [forwardRequest] builds: the caller's headers without
    [Host] and [Content-Length], then [Content-Type] set. The header keys
    are taken in the canonical form in which [net/http] delivers them. *)
Definition upstreamRequest (url body : string) (headers : http.Header) : UpstreamRequest :=
  let copied :=
    filter (fun kv => kv.1 ≠ "Host" ∧ kv.1 ≠ "Content-Length") headers in
  {| upMethod := "POST"; upURL := url;
     upHeader := <["Content-Type" := ["application/json"]]> copied;
     upBody := body |}.

(** [i] is the index of the endpoint in the failover loop. *)
Definition forwardRequest (t : Transport) (i : nat) (endpoint : loc)
    (body : string) (headers : http.Header) : M (string + http.Response) :=
  let* url := readURL endpoint in
  match newRequestErr t url with
  | Some err => ret (inl ("failed to create request: " +:+ err))
  | None =>
      let* res := send i t (upstreamRequest url body headers) in
      match res with
      | inl err => ret (inl ("request failed: " +:+ err))
      | inr resp => ret (inr resp)
      end
  end.

(** The failover loop, [for i, endpoint := range sortedEndpoints], and the
    code after it. [lastErr = None] is Go's nil error. *)
Fixpoint tryEndpoints (t : Transport) (body : string) (headers : http.Header)
    (i : nat) (sortedEndpoints : list loc) (lastErr : option string) : M unit :=
  match sortedEndpoints with
  | endpoint :: rest =>
      let* res := forwardRequest t i endpoint body headers in
      match res with
      | inl err => tryEndpoints t body headers (S i) rest (Some err)
      | inr resp => copyResponse resp
      end
  | [] =>
      match lastErr with
      | Some err =>
          writeErrorResponse (-32000) "All RPC endpoints failed" (Some (JString err))
      | None => panic
      end
  end.

(** [server.go], lines 192 to 222: the part of [handleRPCForChain] that
    runs once the request body is in hand. *)
Definition forward (t : Transport) (chainName : string) (body : string)
    (headers : http.Header) : M unit :=
  let* healthyEndpoints := getHealthyEndpoints chainName in
  if (length healthyEndpoints =? 0)%nat then
    writeErrorResponse (-32000)
      ("No healthy RPC endpoints available for chain: " +:+ chainName) None
  else
    let* sortedEndpoints := getSortedEndpointsByWeight healthyEndpoints in
    tryEndpoints t body headers 0 sortedEndpoints None.

(** A POST with a declared length between 1 and 999 has its body read
    once for the log, the error of that read dropped, and replaced by a
    buffer over the bytes read. *)
Definition handleRPCForChain (t : Transport) (r : Request) (chainName : string) : M unit :=
  if negb (String.eqb (Method r) "POST") && negb (String.eqb (Method r) "GET") then
    httpError "Method not allowed" http.StatusMethodNotAllowed
  else
    let readAll :=
      if String.eqb (Method r) "POST" && (0 <? ContentLength r) && (ContentLength r <? 1000)
      then ((ReadAll r).1, None)
      else ReadAll r in
    match readAll with
    | (_, Some _) => writeErrorResponse (-32700) "Parse error" None
    | (body, None) => forward t chainName body (ReqHeader r)
    end.

Definition handleLegacyRPC (t : Transport) (r : Request) : M unit :=
  handleRPCForChain t r "ethereum".

End proxy.

(** * Definitions used by the statements and proofs *)

Import health proxy.

Section bubble_defs.
Variable weight : loc -> Z.

(** One inner pass seen from the element it carries: [x] sits at the
    cursor, [post] is what lies to its right and [k] comparisons are
    left. *)
Fixpoint carry (k : nat) (x : loc) (post : list loc) : list loc :=
  match k, post with
  | S k', y :: post' =>
      if weight x <? weight y then y :: carry k' x post'
      else x :: carry k' y post'
  | _, _ => x :: post
  end.

(** [a] may stand before [b] in descending weight order. *)
Definition desc (a b : loc) : Prop := weight b <= weight a.

(** After [i] outer iterations the last [i] cells hold their final
    values. *)
Definition settled (i : nat) (s : list loc) : Prop :=
  exists front back,
    s = front ++ back /\ length back = i /\ StronglySorted desc back
    /\ Forall (fun f => Forall (fun b => weight b <= weight f) back) front.

End bubble_defs.

(** The acceptance test of [processHealthCheckResponse], as a function of
    the response alone: the block number the probe reads, if any. *)
Definition blockOf (resp : http.Response) : option Z :=
  if negb (http.StatusCode resp =? http.StatusOK) then None
  else match http.Decoded resp with
       | None => None
       | Some jsonResp =>
           if negb (isNil (jsonResp !! "error")) then None
           else match jsonResp !! "result" with
                | Some (JString blockHex) =>
                    if strings.HasPrefix blockHex "0x" then
                      match strconv.ParseInt (strings.from 2 blockHex) 16 with
                      | (blockNum, None) => Some blockNum
                      | (_, Some _) => None
                      end
                    else None
                | _ => None
                end
       end.

(** [forwardRequest] as a function of the endpoint's URL: its result and
    the upstream calls it issues. *)
Definition attempt (t : Transport) (i : nat) (url body : string) (headers : http.Header)
    : (string + http.Response) * list UpstreamRequest :=
  match proxy.newRequestErr t url with
  | Some err => (inl ("failed to create request: " +:+ err), [])
  | None =>
      (match clientDo t i (upstreamRequest url body headers) with
       | inl err => inl ("request failed: " +:+ err)
       | inr resp => inr resp
       end, [upstreamRequest url body headers])
  end.

(** The world after [calls] have gone out. *)
Definition sent (calls : list UpstreamRequest) (σ : World) : World :=
  {| heap := heap σ; checker := checker σ; w := w σ; wire := wire σ ++ calls |}.

(** [forwardRequest] for [endpoint] at loop index [i] returns the error
    [err], respectively the response [resp]. Its result depends on the
    world through the heap alone ([forwardRequest_attempt]), which the loop
    does not change, so the world the handler starts in serves for every
    turn of the loop. *)
Definition failsAt (t : Transport) (i : nat) (endpoint : loc) (body : string)
    (headers : http.Header) (σ : World) (err : string) : Prop :=
  exists σ', forwardRequest t i endpoint body headers σ = Done (inl err) σ'.

Definition answersAt (t : Transport) (i : nat) (endpoint : loc) (body : string)
    (headers : http.Header) (σ : World) (resp : http.Response) : Prop :=
  exists σ', forwardRequest t i endpoint body headers σ = Done (inr resp) σ'.

(** The writer after [writeErrorResponse]. *)
Definition errorWriter (code : Z) (message : string) (data : option JSON)
    (rw : ResponseWriter) : ResponseWriter :=
  {| wHeader := <["Content-Type" := ["application/json"]]> (wHeader rw);
     wStatus := Some (default http.StatusOK (wStatus rw));
     wBody := wBody rw ++ [Encoded {| Jsonrpc := "2.0"; Result := None;
                                      Error := Some {| Code := code; Message := message; Data := data |};
                                      RespID := None |}] |}.


(** The world a handler starts in: nothing has been sent on the writer,
    whose header may already carry what the middleware set, and no upstream
    call has been issued. *)
Definition entry (heap : gmap loc RPCEndpoint) (checker : MultiChainChecker)
    (hdr : http.Header) : World :=
  {| heap := heap; checker := checker;
     w := {| wHeader := hdr; wStatus := None; wBody := [] |};
     wire := [] |}.

(** * The weight ordering *)

Section bubble.
Variable weight : loc -> Z.


Lemma swapStep_cons (p : loc) (j : nat) (s : list loc) :
  swapStep weight (S j) (p :: s) = cons p <$> swapStep weight j s.
Proof.
  unfold swapStep. simpl.
  destruct (s !! j) as [a |]; [| reflexivity].
  destruct (s !! (j + 1)%nat) as [b |]; [| reflexivity].
  destruct (weight a <? weight b); reflexivity.
Qed.

(** With two cells at the cursor the step stays in range. *)
Lemma swapStep_middle (pre : list loc) (a b : loc) (post : list loc) :
  swapStep weight (length pre) (pre ++ a :: b :: post) =
  Some (if weight a <? weight b then pre ++ b :: a :: post else pre ++ a :: b :: post).
Proof.
  induction pre as [| p pre IH].
  - unfold swapStep. simpl. destruct (weight a <? weight b); reflexivity.
  - simpl. rewrite swapStep_cons, IH. simpl.
    destruct (weight a <? weight b); reflexivity.
Qed.

Lemma innerLoop_carry (k : nat) : forall (pre : list loc) (x : loc) (post : list loc),
  (k <= length post)%nat ->
  foldl (fun acc j => acc ≫= swapStep weight j) (Some (pre ++ x :: post))
        (seq (length pre) k)
  = Some (pre ++ carry weight k x post).
Proof.
  induction k as [| k IH]; intros pre x post Hk; [reflexivity |].
  destruct post as [| y post]; [simpl in Hk; lia |].
  simpl in Hk. cbn [seq foldl carry]. cbn [mbind option_bind].
  rewrite swapStep_middle.
  destruct (weight x <? weight y).
  - replace (pre ++ y :: x :: post) with ((pre ++ [y]) ++ x :: post)
      by (rewrite <- app_assoc; reflexivity).
    replace (S (length pre)) with (length (pre ++ [y])) by (rewrite length_app; simpl; lia).
    rewrite IH by lia. rewrite <- app_assoc. reflexivity.
  - replace (pre ++ x :: y :: post) with ((pre ++ [x]) ++ y :: post)
      by (rewrite <- app_assoc; reflexivity).
    replace (S (length pre)) with (length (pre ++ [x])) by (rewrite length_app; simpl; lia).
    rewrite IH by lia. rewrite <- app_assoc. reflexivity.
Qed.

Lemma carry_perm (k : nat) : forall x post, carry weight k x post ≡ₚ x :: post.
Proof.
  induction k as [| k IH]; intros x post; [reflexivity |].
  destruct post as [| y post]; [reflexivity |]. simpl.
  destruct (weight x <? weight y).
  - rewrite IH. apply perm_swap.
  - rewrite IH. reflexivity.
Qed.

Lemma carry_filter (v : Z) (k : nat) : forall x post,
  filter (fun p => weight p = v) (carry weight k x post)
  = filter (fun p => weight p = v) (x :: post).
Proof.
  induction k as [| k IH]; intros x post; [reflexivity |].
  destruct post as [| y post]; [reflexivity |]. simpl.
  destruct (weight x <? weight y) eqn:E.
  - apply Z.ltb_lt in E.
    rewrite !filter_cons, IH, !filter_cons.
    repeat case_decide; try reflexivity; lia.
  - rewrite !filter_cons, IH, !filter_cons. reflexivity.
Qed.

Lemma carry_split (k : nat) : forall x post,
  (k <= length post)%nat ->
  exists pre z,
    carry weight k x post = pre ++ z :: drop k post
    /\ length pre = k
    /\ Forall (fun e => weight z <= weight e) pre
    /\ weight z <= weight x
    /\ pre ++ [z] ≡ₚ x :: take k post.
Proof.
  induction k as [| k IH]; intros x post Hk.
  - exists [], x. simpl. rewrite drop_0, take_0. repeat split; auto. lia.
  - destruct post as [| y post]; [simpl in Hk; lia |]. simpl in Hk. simpl.
    destruct (weight x <? weight y) eqn:E.
    + apply Z.ltb_lt in E.
      destruct (IH x post) as (pre & z & Hc & Hl & Hf & Hz & Hp); [lia |].
      exists (y :: pre), z. rewrite Hc. split_and!.
      * reflexivity.
      * simpl. congruence.
      * constructor; [lia | assumption].
      * assumption.
      * simpl. rewrite Hp. apply perm_swap.
    + apply Z.ltb_ge in E.
      destruct (IH y post) as (pre & z & Hc & Hl & Hf & Hz & Hp); [lia |].
      exists (x :: pre), z. rewrite Hc. split_and!.
      * reflexivity.
      * simpl. congruence.
      * constructor; [lia | assumption].
      * lia.
      * simpl. rewrite Hp. reflexivity.
Qed.

Lemma innerLoop_settled (n i : nat) (s : list loc) :
  length s = n -> (S i < n)%nat -> settled weight i s ->
  exists s',
    innerLoop weight n i s = Some s'
    /\ settled weight (S i) s'
    /\ s' ≡ₚ s
    /\ forall v, filter (fun p => weight p = v) s' = filter (fun p => weight p = v) s.
Proof.
  intros Hn Hi (front & back & -> & Hb & Hs & Hfb).
  rewrite length_app in Hn.
  destruct front as [| x fpost]; [simpl in Hn; lia |].
  simpl in Hn.
  assert (Hk : (n - i - 1)%nat = length fpost) by lia.
  unfold innerLoop. rewrite Hk.
  change ((x :: fpost) ++ back) with ([] ++ x :: (fpost ++ back)).
  change 0%nat with (length (@nil loc)).
  rewrite innerLoop_carry by (rewrite length_app; lia).
  eexists. split; [reflexivity |].
  simpl. split_and!.
  - destruct (carry_split (length fpost) x (fpost ++ back)) as (pre & z & Hc & Hl & Hf & Hz & Hp);
      [rewrite length_app; lia |].
    rewrite drop_app_length in Hc. rewrite take_app_length in Hp.
    exists pre, (z :: back). rewrite Hc. split_and!.
    + reflexivity.
    + simpl. congruence.
    + constructor; [assumption |].
      assert (Hz' : z ∈ x :: fpost) by (rewrite <- Hp; set_solver).
      rewrite Forall_forall in Hfb. exact (Hfb z Hz').
    + rewrite Forall_forall. intros f Hfin. constructor.
      * rewrite Forall_forall in Hf. exact (Hf f Hfin).
      * assert (Hf' : f ∈ x :: fpost) by (rewrite <- Hp; set_solver).
        rewrite Forall_forall in Hfb. exact (Hfb f Hf').
  - apply carry_perm.
  - intros v. apply carry_filter.
Qed.

Lemma outerLoop_settled (n m : nat) : forall (i : nat) (s : list loc),
  length s = n -> (i + m < n)%nat -> settled weight i s ->
  exists s',
    foldl (fun acc i => acc ≫= innerLoop weight n i) (Some s) (seq i m) = Some s'
    /\ settled weight (i + m) s' /\ s' ≡ₚ s
    /\ forall v, filter (fun p => weight p = v) s' = filter (fun p => weight p = v) s.
Proof.
  induction m as [| m IH]; intros i s Hn Him Hset; cbn [seq foldl].
  - exists s. rewrite Nat.add_0_r. auto.
  - destruct (innerLoop_settled n i s Hn ltac:(lia) Hset) as (s1 & Hrun & H1 & H2 & H3).
    cbn [mbind option_bind]. rewrite Hrun.
    destruct (IH (S i) s1) as (s' & Grun & G1 & G2 & G3).
    + rewrite H2. exact Hn.
    + lia.
    + exact H1.
    + exists s'. split_and!.
      * exact Grun.
      * replace (i + S m)%nat with (S i + m)%nat by lia. exact G1.
      * rewrite G2. exact H2.
      * intros v. rewrite G3. apply H3.
Qed.

Lemma settled_all (s : list loc) :
  settled weight (length s - 1) s -> StronglySorted (desc weight) s.
Proof.
  intros (front & back & -> & Hb & Hs & Hfb).
  rewrite length_app in Hb.
  destruct front as [| f [| f' front]].
  - exact Hs.
  - simpl. constructor; [exact Hs |]. inversion Hfb; subst. assumption.
  - simpl in Hb. lia.
Qed.

(** The loops never index outside the slice, and what they leave is the
    input stably sorted by descending weight. *)
Lemma bubbleSort_spec (endpoints : list loc) :
  exists sorted,
    bubbleSort weight endpoints = Some sorted
    /\ sorted ≡ₚ endpoints
    /\ StronglySorted (desc weight) sorted
    /\ forall v, filter (fun p => weight p = v) sorted
                 = filter (fun p => weight p = v) endpoints.
Proof.
  unfold bubbleSort.
  destruct endpoints as [| e rest].
  - exists []. simpl. split_and!; [reflexivity | reflexivity | constructor | reflexivity].
  - set (s := e :: rest).
    destruct (outerLoop_settled (length s) (length s - 1) 0%nat s)
      as (sorted & Hrun & H1 & H2 & H3).
    + reflexivity.
    + simpl. lia.
    + exists s, []. rewrite app_nil_r. split_and!; [reflexivity | reflexivity | constructor |].
      apply Forall_forall. intros. constructor.
    + exists sorted. split_and!; [exact Hrun | exact H2 | | exact H3].
      apply settled_all. simpl in H1.
      erewrite Permutation_length by exact H2. exact H1.
Qed.


Lemma filter_sublist_mono (P : loc -> Prop) `{!forall x, Decision (P x)} (l1 l2 : list loc) :
  l1 `sublist_of` l2 -> filter P l1 `sublist_of` filter P l2.
Proof.
  induction 1 as [| x l1 l2 _ IH | x l1 l2 _ IH].
  - constructor.
  - rewrite !filter_cons. case_decide; [by constructor | exact IH].
  - rewrite filter_cons. case_decide; [by constructor | exact IH].
Qed.

(** Two endpoints of equal weight leave the sort in the order in which they
    entered it. *)
Lemma bubbleSort_keeps_order (endpoints sorted : list loc) (a b : loc) :
  bubbleSort weight endpoints = Some sorted ->
  weight a = weight b ->
  [a; b] `sublist_of` endpoints ->
  [a; b] `sublist_of` sorted.
Proof.
  intros Hrun Hw Hin.
  destruct (bubbleSort_spec endpoints) as (sorted' & Hrun' & _ & _ & Hf).
  assert (sorted' = sorted) as -> by congruence.
  apply (filter_sublist_mono (fun p => weight p = weight a)) in Hin.
  rewrite <- Hf in Hin.
  rewrite !filter_cons, filter_nil in Hin.
  rewrite decide_True in Hin by reflexivity.
  rewrite decide_True in Hin by (symmetry; exact Hw).
  etransitivity; [exact Hin | apply sublist_filter].
Qed.

End bubble.

(** * The prober *)

Lemma processHealthCheckResponse_blockOf now rt resp e :
  processHealthCheckResponse now rt resp e =
  match blockOf resp with
  | Some blockNum =>
      (SetHealthy now true (SetBlockNumber (strconv.FormatInt blockNum) (SetResponseTime rt e)), true)
  | None => (SetHealthy now false (SetResponseTime rt e), true)
  end.
Proof.
  unfold processHealthCheckResponse, blockOf.
  destruct (negb (http.StatusCode resp =? http.StatusOK)); [reflexivity |].
  destruct (http.Decoded resp) as [jsonResp |]; [| reflexivity].
  destruct (negb (isNil (jsonResp !! "error"))); [reflexivity |].
  destruct (jsonResp !! "result") as [[| | | blockHex | |] |]; try reflexivity.
  destruct (strings.HasPrefix blockHex "0x"); [| reflexivity].
  destruct (strconv.ParseInt (strings.from 2 blockHex) 16) as [blockNum [err |]]; reflexivity.
Qed.

Lemma processHealthCheckResponse_done now rt resp e :
  (processHealthCheckResponse now rt resp e).2 = true.
Proof. rewrite processHealthCheckResponse_blockOf. destruct (blockOf resp); reflexivity. Qed.

(** Every path through the retry loop calls [SetHealthy] exactly once. *)
Lemma attempts_once p fuel : forall attempt e,
  let e' := attempts p fuel attempt e in
  FailCount e' = if Healthy e' then 0 else wrap64 (FailCount e + 1).
Proof.
  induction fuel as [| fuel IH]; intros attempt e; simpl.
  - reflexivity.
  - destruct ((0 <? attempt)%nat && ctxDone p attempt); [reflexivity |].
    destruct (Do p attempt) as [err | resp]; [apply IH |].
    rewrite processHealthCheckResponse_blockOf.
    destruct (blockOf resp); reflexivity.
Qed.

Lemma checkEndpointHealth_once config p e :
  let e' := checkEndpointHealth config p e in
  FailCount e' = if Healthy e' then 0 else wrap64 (FailCount e + 1).
Proof.
  unfold checkEndpointHealth.
  destruct (marshalErr p); [reflexivity |].
  destruct (health.newRequestErr p); [reflexivity |].
  apply attempts_once.
Qed.

Lemma attempts_answered p resp blockNum : forall fuel k attempt e,
  (k < fuel)%nat ->
  (forall i, (attempt <= i < attempt + k)%nat -> exists err, Do p i = DoErr err) ->
  (forall i, (attempt <= i <= attempt + k)%nat -> (0 < i)%nat -> ctxDone p i = false) ->
  Do p (attempt + k)%nat = DoOk resp ->
  blockOf resp = Some blockNum ->
  attempts p fuel attempt e =
  SetHealthy (now p (attempt + k)%nat) true
    (SetBlockNumber (strconv.FormatInt blockNum)
       (SetResponseTime (since p (attempt + k)%nat) e)).
Proof.
  induction fuel as [| fuel IH]; intros k attempt e Hk Herr Hctx Hdo Hblock; [lia |].
  simpl.
  assert (Hc : (0 <? attempt)%nat && ctxDone p attempt = false).
  { destruct (0 <? attempt)%nat eqn:E; [| reflexivity]. simpl.
    apply Hctx; [lia |]. by apply Nat.ltb_lt in E. }
  rewrite Hc.
  destruct k as [| k].
  - rewrite Nat.add_0_r in *. rewrite Hdo, processHealthCheckResponse_blockOf, Hblock.
    reflexivity.
  - destruct (Herr attempt) as [err ->]; [lia |].
    replace (attempt + S k)%nat with (S attempt + k)%nat in * by lia.
    apply IH; auto.
    + lia.
    + intros i Hi. apply Herr. lia.
    + intros i Hi. apply Hctx. lia.
Qed.

Lemma attempts_no_answer p fuel : forall attempt e,
  (forall i resp, Do p i = DoOk resp -> blockOf resp = None) ->
  Healthy (attempts p fuel attempt e) = false.
Proof.
  induction fuel as [| fuel IH]; intros attempt e Hno; simpl.
  - reflexivity.
  - destruct ((0 <? attempt)%nat && ctxDone p attempt); [reflexivity |].
    destruct (Do p attempt) as [err | resp] eqn:E; [apply IH, Hno |].
    rewrite processHealthCheckResponse_blockOf, (Hno attempt resp E). reflexivity.
Qed.

Lemma wrap64_small (z : Z) : - 2 ^ 63 <= z < 2 ^ 63 -> wrap64 z = z.
Proof. intros H. unfold wrap64. rewrite Z.mod_small; lia. Qed.

(** * The forwarder *)

Lemma sent_nil σ : sent [] σ = σ.
Proof. destruct σ. unfold sent. simpl. by rewrite app_nil_r. Qed.

Lemma sent_sent c1 c2 σ : sent c2 (sent c1 σ) = sent (c1 ++ c2) σ.
Proof. unfold sent. simpl. by rewrite app_assoc. Qed.

Lemma forwardRequest_attempt t i endpoint body headers σ :
forwardRequest t i endpoint body headers σ =
Done (attempt t i (URL (heap σ !!! endpoint)) body headers).1
     (sent (attempt t i (URL (heap σ !!! endpoint)) body headers).2 σ).
Proof.
unfold forwardRequest, attempt, bind, readURL.
destruct (proxy.newRequestErr t (URL (heap σ !!! endpoint))) as [err |]; simpl.
- unfold ret. by rewrite sent_nil.
- unfold send, sent. simpl.
  destruct (clientDo t i _); reflexivity.
Qed.

Lemma failsAt_attempt t i endpoint body headers σ err :
failsAt t i endpoint body headers σ err <->
(attempt t i (URL (heap σ !!! endpoint)) body headers).1 = inl err.
Proof.
unfold failsAt. rewrite forwardRequest_attempt. split.
- intros [σ' H]. congruence.
- intros ->. eauto.
Qed.

Lemma answersAt_attempt t i endpoint body headers σ resp :
answersAt t i endpoint body headers σ resp <->
(attempt t i (URL (heap σ !!! endpoint)) body headers).1 = inr resp.
Proof.
unfold answersAt. rewrite forwardRequest_attempt. split.
- intros [σ' H]. congruence.
- intros ->. eauto.
Qed.

Lemma attempt_calls_url t i url body headers :
map upURL (attempt t i url body headers).2 `sublist_of` [url].
Proof.
unfold attempt. destruct (proxy.newRequestErr t url); simpl.
- apply sublist_nil_l.
- reflexivity.
Qed.

Lemma writeErrorResponse_run code message data σ :
writeErrorResponse code message data σ =
Done tt {| heap := heap σ; checker := checker σ;
           w := errorWriter code message data (w σ); wire := wire σ |}.
Proof. destruct σ as [h c [wh [ws |] wb] wi]; reflexivity. Qed.

Lemma headerAdds_run (values : list string) (key : string) (k : M unit) σ :
exists hdr,
  foldr (fun value k' => run headerAdd key value then k') k values σ =
  k {| heap := heap σ; checker := checker σ;
       w := {| wHeader := hdr; wStatus := wStatus (w σ); wBody := wBody (w σ) |};
       wire := wire σ |}.
Proof.
revert σ. induction values as [| v values IH]; intros σ; simpl.
- exists (wHeader (w σ)). by destruct σ as [h c [wh ws wb] wi].
- unfold bind at 1. simpl.
  edestruct IH as [hdr ->]. simpl. eauto.
Qed.

Lemma copyHeaders_run (hs : list (string * list string)) σ :
exists hdr,
  foldr (fun kv k => foldr (fun value k' => run headerAdd kv.1 value then k') k kv.2)
        (ret tt) hs σ =
  Done tt {| heap := heap σ; checker := checker σ;
             w := {| wHeader := hdr; wStatus := wStatus (w σ); wBody := wBody (w σ) |};
             wire := wire σ |}.
Proof.
revert σ. induction hs as [| kv hs IH]; intros σ; simpl.
- exists (wHeader (w σ)). by destruct σ as [h c [wh ws wb] wi].
- destruct (headerAdds_run kv.2 kv.1
              (foldr (fun kv k => foldr (fun value k' => run headerAdd kv.1 value then k') k kv.2)
                 (ret tt) hs) σ) as [hdr ->].
  edestruct IH as [hdr' ->]. simpl. eauto.
Qed.

Lemma copyResponse_run resp σ :
exists hdr,
  copyResponse resp σ =
  Done tt {| heap := heap σ; checker := checker σ;
             w := {| wHeader := hdr;
                     wStatus := Some (default (http.StatusCode resp) (wStatus (w σ)));
                     wBody := wBody (w σ) ++ [Raw (http.Body resp)] |};
             wire := wire σ |}.
Proof.
unfold copyResponse. unfold bind at 1.
destruct (copyHeaders_run (map_to_list (http.RespHeader resp)) σ) as [hdr ->].
exists hdr. simpl. destruct (wStatus (w σ)); reflexivity.
Qed.

Section failover.
Variables (t : Transport) (body : string) (headers : http.Header).

Lemma tryEndpoints_answer (resp : http.Response) (e : loc) (post : list loc) :
  forall (pre : list loc) (i : nat) (lastErr : option string) (σ : World),
    (forall j p, pre !! j = Some p -> exists err, failsAt t (i + j) p body headers σ err) ->
    answersAt t (i + length pre) e body headers σ resp ->
    exists calls,
      tryEndpoints t body headers i (pre ++ e :: post) lastErr σ
      = copyResponse resp (sent calls σ)
      /\ map upURL calls `sublist_of` map (fun p => URL (heap σ !!! p)) (pre ++ [e]).
Proof.
  induction pre as [| p pre IH]; intros i lastErr σ Hfail Hans.
  - simpl in *. rewrite Nat.add_0_r in Hans.
    apply answersAt_attempt in Hans.
    unfold bind. rewrite forwardRequest_attempt, Hans.
    eexists. split; [reflexivity |]. apply attempt_calls_url.
  - simpl.
    destruct (Hfail 0%nat p eq_refl) as [err Herr].
    rewrite Nat.add_0_r in Herr. apply failsAt_attempt in Herr.
    unfold bind at 1. rewrite forwardRequest_attempt, Herr.
    set (c1 := (attempt t i (URL (heap σ !!! p)) body headers).2).
    destruct (IH (S i) (Some err) (sent c1 σ)) as (calls & Hrun & Hsub).
    + intros j q Hq. destruct (Hfail (S j) q Hq) as [err' H'].
      exists err'. apply failsAt_attempt. apply failsAt_attempt in H'.
      cbn [sent heap]. replace (S i + j)%nat with (i + S j)%nat by lia. exact H'.
    + apply answersAt_attempt. apply answersAt_attempt in Hans.
      cbn [sent heap length] in *.
      replace (S i + length pre)%nat with (i + S (length pre))%nat by lia.
      exact Hans.
    + exists (c1 ++ calls). rewrite Hrun, sent_sent. split; [reflexivity |].
      rewrite map_app. simpl in Hsub.
      change (URL (heap σ !!! p) :: map (fun p0 => URL (heap σ !!! p0)) (pre ++ [e]))
        with ([URL (heap σ !!! p)] ++ map (fun p0 => URL (heap σ !!! p0)) (pre ++ [e])).
      apply sublist_app; [apply attempt_calls_url | exact Hsub].
Qed.

Lemma tryEndpoints_exhausted :
  forall (init : list loc) (last : loc) (i : nat) (lastErr : option string) (σ : World) (err : string),
    (forall j p, init !! j = Some p -> exists err', failsAt t (i + j) p body headers σ err') ->
    failsAt t (i + length init) last body headers σ err ->
    exists calls,
      tryEndpoints t body headers i (init ++ [last]) lastErr σ
      = writeErrorResponse (-32000) "All RPC endpoints failed" (Some (JString err))
          (sent calls σ).
Proof.
  induction init as [| p init IH]; intros last i lastErr σ err Hfail Hlast.
  - simpl in *. rewrite Nat.add_0_r in Hlast. apply failsAt_attempt in Hlast.
    unfold bind. rewrite forwardRequest_attempt, Hlast. eauto.
  - simpl.
    destruct (Hfail 0%nat p eq_refl) as [err0 Herr].
    rewrite Nat.add_0_r in Herr. apply failsAt_attempt in Herr.
    unfold bind at 1. rewrite forwardRequest_attempt, Herr.
    set (c1 := (attempt t i (URL (heap σ !!! p)) body headers).2).
    destruct (IH last (S i) (Some err0) (sent c1 σ) err) as (calls & Hrun).
    + intros j q Hq. destruct (Hfail (S j) q Hq) as [err' H'].
      exists err'. apply failsAt_attempt. apply failsAt_attempt in H'.
      cbn [sent heap]. replace (S i + j)%nat with (i + S j)%nat by lia. exact H'.
    + apply failsAt_attempt. apply failsAt_attempt in Hlast.
      cbn [sent heap length] in *.
      replace (S i + length init)%nat with (i + S (length init))%nat by lia.
      exact Hlast.
    + exists (c1 ++ calls). by rewrite Hrun, sent_sent.
Qed.

Lemma tryEndpoints_heap : forall (l : list loc) (i : nat) (lastErr : option string) (σ : World),
  heap (final (tryEndpoints t body headers i l lastErr σ)) = heap σ
  /\ checker (final (tryEndpoints t body headers i l lastErr σ)) = checker σ.
Proof.
  induction l as [| p l IH]; intros i lastErr σ; simpl.
  - destruct lastErr; [| split; reflexivity].
    rewrite writeErrorResponse_run. split; reflexivity.
  - unfold bind. rewrite forwardRequest_attempt.
    destruct (attempt t i (URL (heap σ !!! p)) body headers).1 as [err | resp].
    + destruct (IH (S i) (Some err) (sent (attempt t i (URL (heap σ !!! p)) body headers).2 σ)) as [H1 H2].
      rewrite H1, H2. split; reflexivity.
    + destruct (copyResponse_run resp (sent (attempt t i (URL (heap σ !!! p)) body headers).2 σ)) as [hdr ->].
      split; reflexivity.
Qed.
End failover.

Lemma forward_frame t chainName body headers σ :
  heap (final (forward t chainName body headers σ)) = heap σ
  /\ checker (final (forward t chainName body headers σ)) = checker σ.
Proof.
  unfold forward, bind, getHealthyEndpoints.
  destruct (length (GetHealthyEndpoints (checker σ) (heap σ) chainName) =? 0)%nat.
  - rewrite writeErrorResponse_run. split; reflexivity.
  - unfold getSortedEndpointsByWeight.
    destruct (length (GetHealthyEndpoints (checker σ) (heap σ) chainName) =? 0)%nat;
      [apply tryEndpoints_heap |].
    destruct (bubbleSort _ _); [apply tryEndpoints_heap | split; reflexivity].
Qed.

(** A POST or GET whose body was read without error reaches [forward] with
    the bytes read. *)
Lemma handleRPCForChain_forward t r chainName σ body :
  Method r = "POST" \/ Method r = "GET" ->
  ReadAll r = (body, None) ->
  handleRPCForChain t r chainName σ = forward t chainName body (ReqHeader r) σ.
Proof.
  intros Hm Hr. unfold handleRPCForChain. rewrite Hr.
  destruct Hm as [-> | ->]; simpl.
  - destruct ((0 <? ContentLength r) && (ContentLength r <? 1000)); reflexivity.
  - reflexivity.
Qed.

(** * The registry *)

Lemma healthy_foldl (heap : gmap loc RPCEndpoint) (l : list loc) : forall acc,
  foldl (fun healthy endpoint =>
           if IsHealthy (heap !!! endpoint) then healthy ++ [endpoint] else healthy)
        acc l
  = acc ++ filter (fun p => Healthy (heap !!! p) = true) l.
Proof.
  induction l as [| p l IH]; intros acc; simpl.
  - by rewrite app_nil_r.
  - rewrite IH, filter_cons. unfold IsHealthy.
    destruct (Healthy (heap !!! p)) eqn:E.
    + rewrite decide_True by reflexivity. by rewrite <- app_assoc.
    + rewrite decide_False by discriminate. reflexivity.
Qed.

Lemma RemoveChain_probers chainName mc :
  probers (RemoveChain chainName mc) = probers mc
  /\ cancelled (RemoveChain chainName mc) = cancelled mc.
Proof. split; reflexivity. Qed.

(** What [markUnhealthy] does to the flag and the counter: the counter is
    stepped by [IncrementFailCount], and once more by [SetHealthy] when the
    threshold is reached. *)
Lemma markUnhealthy_effect config now rt bn e :
  let failCount := wrap64 (FailCount e + 1) in
  Healthy (markUnhealthy config now rt bn e)
  = (if Retries config <=? failCount then false else Healthy e)
  /\ FailCount (markUnhealthy config now rt bn e)
     = (if Retries config <=? failCount then wrap64 (failCount + 1) else failCount).
Proof.
  unfold markUnhealthy. simpl.
  destruct (Retries config <=? wrap64 (FailCount e + 1)); split; reflexivity.
Qed.

(** * Sample configuration

    Chain [ethereum] with endpoint A (weight 3) at location 0 and endpoint
    B (weight 2) at location 1, both healthy, and three retries. *)

Definition ethereum : types.Chain := mkChain 1 1 "ethereum" "ethereum" false true.

Definition endpointA : RPCEndpoint :=
  mkRPCEndpoint 1 "A" "https://a.example" 3 true 1 "ethereum" true 0 0 "" 0.

Definition endpointB : RPCEndpoint :=
  mkRPCEndpoint 2 "B" "https://b.example" 2 true 1 "ethereum" true 0 0 "" 0.

(** A, healthy, after two failed probes of the single-chain checker. *)
Definition endpointA2 : RPCEndpoint :=
  mkRPCEndpoint 1 "A" "https://a.example" 3 true 1 "ethereum" true 0 0 "" 2.

(** A, marked down after five failures. *)
Definition endpointDown : RPCEndpoint :=
  mkRPCEndpoint 1 "A" "https://a.example" 3 true 1 "ethereum" false 0 0 "" 5.

(** B, healthy but disabled. *)
Definition endpointOff : RPCEndpoint :=
  mkRPCEndpoint 2 "B" "https://b.example" 2 false 1 "ethereum" true 0 0 "" 0.

Definition threeRetries : HealthCheckConfig := mkHealthCheckConfig 30000 5000 3.

Definition twoEndpoints : gmap loc RPCEndpoint :=
  {[ 0%nat := endpointA; 1%nat := endpointB ]}.

Definition registry : MultiChainChecker :=
  mkMultiChainChecker {[ "ethereum" := mkChainConfig ethereum [0%nat; 1%nat] ]}
    threeRetries false false [].

(** A pass in which every attempt is refused. *)
Definition refused : Probe :=
  mkProbe false false (fun _ => false) (fun _ => DoErr "connection refused")
    (fun _ => 1000) (fun _ => 7).

(** A probe answer with status 200 whose body decodes to the object with
    members [jsonrpc], [id] and [result]; the prober looks at the decoded
    object only and the raw bytes are left empty. *)
Definition blockResponse (result : string) : http.Response :=
  http.mkResponse 200 ∅ ""
    (Some {[ "jsonrpc" := JString "2.0"; "id" := JNumber "1"; "result" := JString result ]}).

(** A pass whose first attempt is refused and whose second is answered
    with block [0x10]. *)
Definition answeredSecond : Probe :=
  mkProbe false false (fun _ => false)
    (fun i => if (i =? 1)%nat then DoOk (blockResponse "0x10") else DoErr "connection refused")
    (fun _ => 1000) (fun _ => 7).

(** A's upstream times out, B's answers. *)
Definition upstreamB : http.Response := http.mkResponse 200 ∅ "result-of-B" None.

Definition timeoutThenAnswer : Transport :=
  mkTransport (fun _ => None)
    (fun _ req => if String.eqb (upURL req) "https://a.example" then inl "timeout"
                  else inr upstreamB).

Definition allTimeout : Transport :=
  mkTransport (fun _ => None) (fun _ req => inl ("timeout " +:+ upURL req)).

(** * The properties of the specification *)

(** C1 as stated fails in the multi-chain prober: with three retries
    configured, one pass in which every attempt is refused leaves the
    counter at 1, below the threshold, and yet changes the healthy flag of
    endpoint A. *)
Lemma failed_pass_below_threshold_marks_down :
  ~ (forall config p e,
        (forall i, exists err, Do p i = DoErr err) ->
        FailCount (checkEndpointHealth config p e) < Retries config ->
        Healthy (checkEndpointHealth config p e) = Healthy e).
Proof.
  intros H.
  specialize (H threeRetries refused endpointA).
  assert (Hall : forall i : nat, exists err, Do refused i = DoErr err)
    by (intros i; eexists; reflexivity).
  specialize (H Hall). vm_compute in H. specialize (H eq_refl). discriminate.
Qed.

(** C1, amended. In the multi-chain prober a pass that ends with the
    endpoint unhealthy has raised the counter by exactly 1, however many
    attempts it made, and a pass in which no attempt brings an acceptable
    answer does end with the endpoint unhealthy, whatever the counter and
    the retry setting are: the setting bounds the attempts of one pass. In
    the single-chain checker a failed probe that leaves the counter below
    the threshold raises it by exactly 1 and leaves the flag as it was, and
    the flag is set to false only when the counter has reached the
    threshold. *)
Theorem failed_pass_effect :
  (forall config p e,
      0 <= FailCount e < maxInt64 ->
      Healthy (checkEndpointHealth config p e) = false ->
      FailCount (checkEndpointHealth config p e) = FailCount e + 1)
  /\ (forall config p e,
        (forall i resp, Do p i = DoOk resp -> blockOf resp = None) ->
        Healthy (checkEndpointHealth config p e) = false)
  /\ (forall config now responseTime blockNumber e,
        0 <= FailCount e < maxInt64 ->
        FailCount e + 1 < Retries config ->
        Healthy (markUnhealthy config now responseTime blockNumber e) = Healthy e
        /\ FailCount (markUnhealthy config now responseTime blockNumber e) = FailCount e + 1)
  /\ (forall config now responseTime blockNumber e,
        0 <= FailCount e < maxInt64 ->
        Healthy e = true ->
        Healthy (markUnhealthy config now responseTime blockNumber e) = false ->
        Retries config <= FailCount e + 1).
Proof.
  split_and!.
  - intros config p e Hfc Hdown.
    pose proof (checkEndpointHealth_once config p e) as Honce. simpl in Honce.
    rewrite Hdown in Honce. rewrite Honce. apply wrap64_small. unfold maxInt64 in Hfc. lia.
  - intros config p e Hno. unfold checkEndpointHealth.
    destruct (marshalErr p); [reflexivity |].
    destruct (health.newRequestErr p); [reflexivity |].
    apply attempts_no_answer, Hno.
  - intros config now responseTime blockNumber e Hfc Hbelow.
    destruct (markUnhealthy_effect config now responseTime blockNumber e) as [Hh Hc].
    rewrite wrap64_small in Hh, Hc by (unfold maxInt64 in Hfc; lia).
    rewrite Hh, Hc.
    destruct (Retries config <=? FailCount e + 1) eqn:E; [apply Z.leb_le in E; lia |].
    split; reflexivity.
  - intros config now responseTime blockNumber e Hfc Hup Hdown.
    destruct (markUnhealthy_effect config now responseTime blockNumber e) as [Hh _].
    rewrite wrap64_small in Hh by (unfold maxInt64 in Hfc; lia).
    rewrite Hdown, Hup in Hh.
    destruct (Retries config <=? FailCount e + 1) eqn:E; [by apply Z.leb_le in E | discriminate].
Qed.

Lemma failed_pass_effect_witness :
  FailCount (checkEndpointHealth threeRetries refused endpointA) = 1
  /\ Healthy (checkEndpointHealth threeRetries refused endpointA) = false
  /\ Healthy (markUnhealthy threeRetries 1000 7 "" endpointA) = true
  /\ FailCount (markUnhealthy threeRetries 1000 7 "" endpointA) = 1.
Proof.
  destruct failed_pass_effect as (H1 & H2 & H3 & _).
  split; [| split].
  - apply (H1 threeRetries refused endpointA); [simpl; unfold maxInt64; lia |].
    vm_compute. reflexivity.
  - apply (H2 threeRetries refused endpointA). intros i resp Hd. discriminate.
  - apply (H3 threeRetries 1000 7 "" endpointA); [simpl; unfold maxInt64; lia |].
    vm_compute. reflexivity.
Defined.

(** The failure that reaches the threshold in the single-chain checker is
    counted twice, by [IncrementFailCount] and again by [SetHealthy]: from
    2 the counter goes to 4. *)
Example markUnhealthy_counts_twice :
  FailCount endpointA2 = 2
  /\ Healthy (markUnhealthy threeRetries 1000 7 "" endpointA2) = false
  /\ FailCount (markUnhealthy threeRetries 1000 7 "" endpointA2) = 4.
Proof. vm_compute. repeat split. Qed.

(** C2. A successful probe sets the healthy flag and clears the failure
    count, whatever they were: in [SetHealthy], in the single-chain
    checker's [markHealthy], and for a whole pass of the multi-chain prober
    whose first answered attempt (attempt [k], after [k] refused ones)
    carries an acceptable block number. *)
Theorem successful_probe_recovers :
  (forall now e,
      Healthy (SetHealthy now true e) = true /\ FailCount (SetHealthy now true e) = 0)
  /\ (forall now responseTime blockNumber e,
        Healthy (markHealthy now responseTime blockNumber e) = true
        /\ FailCount (markHealthy now responseTime blockNumber e) = 0)
  /\ (forall config p e k resp blockNum,
        marshalErr p = false ->
        health.newRequestErr p = false ->
        (k < Z.to_nat (Retries config))%nat ->
        (forall i, (i < k)%nat -> exists err, Do p i = DoErr err) ->
        (forall i, (0 < i <= k)%nat -> ctxDone p i = false) ->
        Do p k = DoOk resp ->
        blockOf resp = Some blockNum ->
        Healthy (checkEndpointHealth config p e) = true
        /\ FailCount (checkEndpointHealth config p e) = 0
        /\ BlockNumber (checkEndpointHealth config p e) = strconv.FormatInt blockNum).
Proof.
  split_and!.
  - intros now e. split; reflexivity.
  - intros now responseTime blockNumber e. split; reflexivity.
  - intros config p e k resp blockNum Hm Hn Hk Herr Hctx Hdo Hblock.
    unfold checkEndpointHealth. rewrite Hm, Hn.
    rewrite (attempts_answered p resp blockNum (Z.to_nat (Retries config)) k 0%nat e);
      simpl; auto.
    + intros i Hi. apply Herr. lia.
    + intros i Hi Hpos. apply Hctx. lia.
Qed.

Lemma successful_probe_recovers_witness :
  Healthy endpointDown = false /\ FailCount endpointDown = 5
  /\ Healthy (checkEndpointHealth threeRetries answeredSecond endpointDown) = true
  /\ FailCount (checkEndpointHealth threeRetries answeredSecond endpointDown) = 0
  /\ BlockNumber (checkEndpointHealth threeRetries answeredSecond endpointDown) = "16".
Proof.
  split; [reflexivity |]. split; [reflexivity |].
  apply (proj2 (proj2 successful_probe_recovers)
           threeRetries answeredSecond endpointDown 1%nat (blockResponse "0x10") 16).
  - reflexivity.
  - reflexivity.
  - vm_compute. lia.
  - intros i Hi. assert (i = 0%nat) as -> by lia. eexists. reflexivity.
  - intros i Hi. reflexivity.
  - reflexivity.
  - vm_compute. reflexivity.
Defined.

(** C3. When the chain's healthy set is empty, [forward] issues no upstream
    call (the wire stays empty) and answers at once with status 200 and the
    JSON-RPC error -32000, "No healthy RPC endpoints available for chain:
    <name>", id null. *)
Theorem forward_no_healthy_endpoint t chainName body headers h mc hdr :
  GetHealthyEndpoints mc h chainName = [] ->
  forward t chainName body headers (entry h mc hdr) =
  Done tt
    {| heap := h; checker := mc;
       w := {| wHeader := <["Content-Type" := ["application/json"]]> hdr;
               wStatus := Some 200;
               wBody :=
                 [Encoded
                    {| Jsonrpc := "2.0"; Result := None;
                       Error :=
                         Some {| Code := -32000;
                                 Message := "No healthy RPC endpoints available for chain: "
                                            +:+ chainName;
                                 Data := None |};
                       RespID := None |}] |};
       wire := [] |}.
Proof.
  intros Hempty. unfold forward, bind, getHealthyEndpoints. simpl.
  rewrite Hempty. simpl. rewrite writeErrorResponse_run. reflexivity.
Qed.

Lemma forward_no_healthy_endpoint_witness :
  wire (final (forward timeoutThenAnswer "solana" "{}" ∅ (entry twoEndpoints registry ∅))) = []
  /\ wStatus (w (final (forward timeoutThenAnswer "solana" "{}" ∅
                          (entry twoEndpoints registry ∅)))) = Some 200.
Proof.
  rewrite (forward_no_healthy_endpoint timeoutThenAnswer "solana" "{}" ∅
             twoEndpoints registry ∅); [| vm_compute; reflexivity].
  split; reflexivity.
Defined.

(** C4. [getSortedEndpointsByWeight] returns, without touching the world, a
    permutation of its input in which every endpoint weighs at least as
    much as every later one, and which is stable: for each weight, the
    endpoints of that weight come out as the same list, in the same order,
    as they went in, so that of two endpoints of equal weight the one that
    stood first in the input stands first in the output. Being a function
    of the input and the weights alone, it does so on every call. *)
Theorem getSortedEndpointsByWeight_stable endpoints σ :
  exists sorted,
    getSortedEndpointsByWeight endpoints σ = Done sorted σ
    /\ sorted ≡ₚ endpoints
    /\ StronglySorted (fun a b => readWeight σ b <= readWeight σ a) sorted
    /\ (forall v, filter (fun p => readWeight σ p = v) sorted
                  = filter (fun p => readWeight σ p = v) endpoints)
    /\ (forall a b, readWeight σ a = readWeight σ b ->
                    [a; b] `sublist_of` endpoints -> [a; b] `sublist_of` sorted).
Proof.
  unfold getSortedEndpointsByWeight.
  destruct endpoints as [| e rest].
  - exists []. simpl.
    split_and!; [reflexivity | reflexivity | constructor | reflexivity | auto].
  - destruct (bubbleSort_spec (readWeight σ) (e :: rest)) as (sorted & Hrun & Hp & Hs & Hf).
    exists sorted. simpl length. simpl Nat.eqb. cbv iota. rewrite Hrun.
    split_and!; [reflexivity | exact Hp | exact Hs | exact Hf |].
    intros a b. by apply bubbleSort_keeps_order.
Qed.

(** C5. If, in the order [getSortedEndpointsByWeight] gives the healthy
    set, the endpoints [pre] all fail and the next one, [e], answers with
    [resp], then [forward] sends back [resp]'s status code and body as they
    are, and the upstream calls it made went, in order, to endpoints of
    [pre ++ [e]] only: nothing after [e] is tried. *)
Theorem forward_first_answer t chainName body headers h mc hdr pre e post resp :
  getSortedEndpointsByWeight (GetHealthyEndpoints mc h chainName) (entry h mc hdr)
  = Done (pre ++ e :: post) (entry h mc hdr) ->
  (forall j p, pre !! j = Some p ->
               exists err, failsAt t j p body headers (entry h mc hdr) err) ->
  answersAt t (length pre) e body headers (entry h mc hdr) resp ->
  exists hdr' calls,
    forward t chainName body headers (entry h mc hdr) =
    Done tt
      {| heap := h; checker := mc;
         w := {| wHeader := hdr';
                 wStatus := Some (http.StatusCode resp);
                 wBody := [Raw (http.Body resp)] |};
         wire := calls |}
    /\ map upURL calls `sublist_of` map (fun p => URL (h !!! p)) (pre ++ [e]).
Proof.
  intros Hsorted Hfail Hans.
  unfold forward, bind, getHealthyEndpoints.
  change (checker (entry h mc hdr)) with mc. change (heap (entry h mc hdr)) with h.
  destruct (GetHealthyEndpoints mc h chainName) as [| x healthy] eqn:Hh.
  { unfold getSortedEndpointsByWeight in Hsorted. simpl in Hsorted.
    destruct pre; discriminate. }
  cbn [length Nat.eqb]. rewrite Hsorted.
  destruct (tryEndpoints_answer t body headers resp e post pre 0%nat None (entry h mc hdr))
    as (calls & Hrun & Hsub); [exact Hfail | exact Hans |].
  rewrite Hrun.
  destruct (copyResponse_run resp (sent calls (entry h mc hdr))) as [hdr' ->].
  exists hdr', calls. split; [reflexivity | exact Hsub].
Qed.

Lemma forward_first_answer_witness :
  exists hdr' calls,
    forward timeoutThenAnswer "ethereum" "{}" ∅ (entry twoEndpoints registry ∅) =
    Done tt
      {| heap := twoEndpoints; checker := registry;
         w := {| wHeader := hdr'; wStatus := Some 200; wBody := [Raw "result-of-B"] |};
         wire := calls |}
    /\ map upURL calls `sublist_of` ["https://a.example"; "https://b.example"].
Proof.
  apply (forward_first_answer timeoutThenAnswer "ethereum" "{}" ∅ twoEndpoints registry ∅
           [0%nat] 1%nat [] upstreamB).
  - vm_compute. reflexivity.
  - intros j p Hj. destruct j as [| j]; [| destruct j; discriminate].
    injection Hj as <-. exists "request failed: timeout". eexists. vm_compute. reflexivity.
  - eexists. vm_compute. reflexivity.
Defined.

(** C6. If every endpoint of the ordered healthy set fails, [forward]
    answers once, with status 200 and a JSON-RPC error whose id is null,
    whose code is -32000, whose message is "All RPC endpoints failed" and
    whose data is the error string of the last endpoint tried. *)
Theorem forward_all_failed t chainName body headers h mc hdr init last err :
  getSortedEndpointsByWeight (GetHealthyEndpoints mc h chainName) (entry h mc hdr)
  = Done (init ++ [last]) (entry h mc hdr) ->
  (forall j p, init !! j = Some p ->
               exists err', failsAt t j p body headers (entry h mc hdr) err') ->
  failsAt t (length init) last body headers (entry h mc hdr) err ->
  exists calls,
    forward t chainName body headers (entry h mc hdr) =
    Done tt
      {| heap := h; checker := mc;
         w := {| wHeader := <["Content-Type" := ["application/json"]]> hdr;
                 wStatus := Some 200;
                 wBody :=
                   [Encoded
                      {| Jsonrpc := "2.0"; Result := None;
                         Error :=
                           Some {| Code := -32000;
                                   Message := "All RPC endpoints failed";
                                   Data := Some (JString err) |};
                         RespID := None |}] |};
         wire := calls |}.
Proof.
  intros Hsorted Hfail Hlast.
  unfold forward, bind, getHealthyEndpoints.
  change (checker (entry h mc hdr)) with mc. change (heap (entry h mc hdr)) with h.
  destruct (GetHealthyEndpoints mc h chainName) as [| x healthy] eqn:Hh.
  { unfold getSortedEndpointsByWeight in Hsorted. simpl in Hsorted.
    destruct init; discriminate. }
  cbn [length Nat.eqb]. rewrite Hsorted.
  destruct (tryEndpoints_exhausted t body headers init last 0%nat None (entry h mc hdr) err)
    as (calls & Hrun); [exact Hfail | exact Hlast |].
  rewrite Hrun, writeErrorResponse_run. exists calls. reflexivity.
Qed.

Lemma forward_all_failed_witness :
  exists calls,
    forward allTimeout "ethereum" "{}" ∅ (entry twoEndpoints registry ∅) =
    Done tt
      {| heap := twoEndpoints; checker := registry;
         w := {| wHeader := <["Content-Type" := ["application/json"]]> ∅;
                 wStatus := Some 200;
                 wBody :=
                   [Encoded
                      {| Jsonrpc := "2.0"; Result := None;
                         Error :=
                           Some {| Code := -32000;
                                   Message := "All RPC endpoints failed";
                                   Data := Some (JString
                                     "request failed: timeout https://b.example") |};
                         RespID := None |}] |};
         wire := calls |}.
Proof.
  apply (forward_all_failed allTimeout "ethereum" "{}" ∅ twoEndpoints registry ∅
           [0%nat] 1%nat).
  - vm_compute. reflexivity.
  - intros j p Hj. destruct j as [| j]; [| destruct j; discriminate].
    injection Hj as <-. eexists. eexists. vm_compute. reflexivity.
  - eexists. vm_compute. reflexivity.
Defined.

(** What decides a probe response, in full: the endpoint is marked healthy
    with the decimal block number exactly when [blockOf] reads one, and
    marked unhealthy otherwise; the retry loop never goes on after a
    response. *)
Lemma processHealthCheckResponse_decides now rt resp e :
  let e' := (processHealthCheckResponse now rt resp e).1 in
  match blockOf resp with
  | Some blockNum => Healthy e' = true /\ BlockNumber e' = strconv.FormatInt blockNum
  | None => Healthy e' = false /\ BlockNumber e' = BlockNumber e
  end.
Proof.
  simpl. rewrite processHealthCheckResponse_blockOf.
  destruct (blockOf resp); split; reflexivity.
Qed.

(** C7, at an input where the code departs from it. The result [0x10] is
    stored as [16]. The result [0x-10] is no hexadecimal number and names
    no non-negative integer, yet [strconv.ParseInt] takes the sign: the
    probe counts as a success and the block number stored is [-16]. *)
Theorem signed_block_number_accepted :
  BlockNumber (processHealthCheckResponse 1000 7 (blockResponse "0x10") endpointDown).1 = "16"
  /\ Healthy endpointDown = false
  /\ Healthy (processHealthCheckResponse 1000 7 (blockResponse "0x-10") endpointDown).1 = true
  /\ BlockNumber (processHealthCheckResponse 1000 7 (blockResponse "0x-10") endpointDown).1
     = "-16".
Proof. vm_compute. repeat split. Qed.

(** The single-chain checker takes any string result and stores it as it
    is. *)
Lemma checkEndpoint_stores_result config now responseTime result id e :
  checkEndpoint config now responseTime
    (LegacyResp 200 (Some (mkJSONRPCResponse "2.0" (Some (JString result)) None id))) e
  = markHealthy now responseTime result e.
Proof. reflexivity. Qed.

(** C8, at an input where the code departs from it. The checker is started
    with chain [ethereum]; [RemoveChain] drops the chain from the map but
    the goroutine started for it stays in [probers], and its next pass,
    here with every attempt refused, marks the chain's endpoint A
    unhealthy. *)
Theorem removed_chain_still_probed :
  let mc := RemoveChain "ethereum" (Start registry) in
  chains mc !! "ethereum" = None
  /\ probers mc = [("ethereum", mkChainConfig ethereum [0%nat; 1%nat])]
  /\ Healthy (twoEndpoints !!! 0%nat) = true
  /\ Healthy (proberPass "ethereum" (fun _ => refused) mc twoEndpoints !!! 0%nat) = false
  /\ FailCount (proberPass "ethereum" (fun _ => refused) mc twoEndpoints !!! 0%nat) = 1.
Proof. vm_compute. repeat split. Qed.



(** C10. Whatever the transport does and however many attempts fail,
    [handleRPCForChain], and [forward] within it, end with the heap of
    endpoints, and the registry, exactly as they found them. *)
Theorem forward_leaves_health_state t r chainName body headers σ :
  heap (final (handleRPCForChain t r chainName σ)) = heap σ
  /\ checker (final (handleRPCForChain t r chainName σ)) = checker σ
  /\ heap (final (forward t chainName body headers σ)) = heap σ
  /\ checker (final (forward t chainName body headers σ)) = checker σ.
Proof.
  assert (Hf := forward_frame t chainName).
  split_and!; try apply Hf.
  - unfold handleRPCForChain.
    destruct (negb (Method r =? "POST")%string && negb (Method r =? "GET")%string);
      [reflexivity |].
    destruct ((Method r =? "POST")%string && (0 <? ContentLength r)
              && (ContentLength r <? 1000)); [apply Hf |].
    destruct (ReadAll r) as [b [err |]];
      [rewrite writeErrorResponse_run; reflexivity | apply Hf].
  - unfold handleRPCForChain.
    destruct (negb (Method r =? "POST")%string && negb (Method r =? "GET")%string);
      [reflexivity |].
    destruct ((Method r =? "POST")%string && (0 <? ContentLength r)
              && (ContentLength r <? 1000)); [apply Hf |].
    destruct (ReadAll r) as [b [err |]];
      [rewrite writeErrorResponse_run; reflexivity | apply Hf].
Qed.

(** * The rest of the packages *)

(** The configuration of an endpoint: the fields no probe writes. *)
Definition sameConfig (e e' : RPCEndpoint) : Prop :=
  ID e' = ID e /\ Name e' = Name e /\ URL e' = URL e /\ Weight e' = Weight e
  /\ Enabled e' = Enabled e /\ ChainID e' = ChainID e /\ ChainName e' = ChainName e.

(** A sequence of passes, each over some chain configuration and meeting
    some network. *)
Definition passes (config : HealthCheckConfig)
    (rounds : list ((loc -> Probe) * ChainConfig))
    (heap : gmap loc RPCEndpoint) : gmap loc RPCEndpoint :=
  foldl (fun heap round => checkChainHealth config round.1 round.2 heap) heap rounds.

(** No disabled endpoint is flagged healthy. *)
Definition disabledDown (heap : gmap loc RPCEndpoint) : Prop :=
  map_Forall (fun _ e => Enabled e = false -> Healthy e = false) heap.

(** How one pass relates the heap it finds to the heap it leaves. *)
Definition passRel (h h' : gmap loc RPCEndpoint) : Prop :=
  forall q,
    match h !! q, h' !! q with
    | Some e, Some e' => sameConfig e e' /\ (Enabled e = false -> e' = e)
    | None, None => True
    | _, _ => False
    end.

(** B, disabled and never probed. *)
Definition endpointIdle : RPCEndpoint :=
  mkRPCEndpoint 2 "B" "https://b.example" 2 false 1 "ethereum" false 0 0 "" 0.

Definition oneIdle : gmap loc RPCEndpoint :=
  {[ 0%nat := endpointDown; 1%nat := endpointIdle ]}.

(** Every endpoint answers the first attempt with block [0x10]. *)
Definition allAnswer : loc -> Probe :=
  fun _ => mkProbe false false (fun _ => false) (fun _ => DoOk (blockResponse "0x10"))
             (fun _ => 1000) (fun _ => 7).

Definition ethereumConfig : ChainConfig := mkChainConfig ethereum [0%nat; 1%nat].

(** Refused like [refused] up to the third attempt, answered from the
    fourth on, which is never made with three retries. *)
Definition answeredTooLate : Probe :=
  mkProbe false false (fun _ => false)
    (fun i => if (i <? 3)%nat then DoErr "connection refused" else DoOk (blockResponse "0x10"))
    (fun _ => 1000) (fun _ => 7).

(** A pass whose first attempt is answered with status 500. *)
Definition serverError : Probe :=
  mkProbe false false (fun _ => false)
    (fun _ => DoOk (http.mkResponse 500 ∅ "" None)) (fun _ => 1000) (fun _ => 7).

(** ** More of [multi_chain_checker.go]: construction and status views *)
Module multichain.

Definition NewMultiChainChecker (chains : gmap string ChainConfig)
    (healthConfig : HealthCheckConfig) : MultiChainChecker :=
  {| chains := chains; healthConfig := healthConfig;
     isRunning := false; cancelled := false; probers := [] |}.

(** [types.ChainHealthStatus]; [len] results are Go [int]s. *)
Record ChainHealthStatus := mkChainHealthStatus {
  StatusChain : types.Chain;
  HealthyEndpoints : list loc;
  UnhealthyEndpoints : list loc;
  TotalEndpoints : Z;
  HealthyCount : Z;
  CurrentRPC : string
}.

(** [types.MultiChainHealthStatus] *)
Record MultiChainHealthStatus := mkMultiChainHealthStatus {
  Proxy : string;
  TotalChains : Z;
  HealthyChains : Z;
  Chains : gmap string ChainHealthStatus;
  Timestamp : Z
}.

(** The body of the loop of [getChainHealthStatus] over the three
    variables [healthyEndpoints], [unhealthyEndpoints] and [currentRPC]. *)
Definition statusStep (heap : gmap loc RPCEndpoint)
    (acc : list loc * list loc * string) (endpoint : loc) : list loc * list loc * string :=
  let '(healthyEndpoints, unhealthyEndpoints, currentRPC) := acc in
  if IsHealthy (heap !!! endpoint) then
    (healthyEndpoints ++ [endpoint], unhealthyEndpoints,
     if String.eqb currentRPC "" && Enabled (heap !!! endpoint)
     then URL (heap !!! endpoint) else currentRPC)
  else (healthyEndpoints, unhealthyEndpoints ++ [endpoint], currentRPC).

Definition getChainHealthStatus (heap : gmap loc RPCEndpoint) (chainName : string)
    (chainConfig : ChainConfig) : ChainHealthStatus :=
  let '(healthyEndpoints, unhealthyEndpoints, currentRPC) :=
    foldl (statusStep heap) ([], [], "") (Endpoints chainConfig) in
  {| StatusChain := Chain chainConfig;
     HealthyEndpoints := healthyEndpoints;
     UnhealthyEndpoints := unhealthyEndpoints;
     TotalEndpoints := Z.of_nat (length (Endpoints chainConfig));
     HealthyCount := Z.of_nat (length healthyEndpoints);
     CurrentRPC := currentRPC |}.

(** [None] is the nil pointer returned for an unknown chain. *)
Definition GetChainStatus (mc : MultiChainChecker) (heap : gmap loc RPCEndpoint)
    (chainName : string) : option ChainHealthStatus :=
  match chains mc !! chainName with
  | None => None
  | Some chainConfig => Some (getChainHealthStatus heap chainName chainConfig)
  end.

(** The loop [for chainName, chainConfig := range mc.chains] is taken in the
    order of [map_to_list]; [now] is the reading of [time.Now()]. *)
Definition GetMultiChainStatus (mc : MultiChainChecker) (heap : gmap loc RPCEndpoint)
    (now : Z) : MultiChainHealthStatus :=
  let '(chainsOut, healthyChains) :=
    foldl (fun (acc : gmap string ChainHealthStatus * Z) (entry : string * ChainConfig) =>
             let chainStatus := getChainHealthStatus heap entry.1 entry.2 in
             (<[entry.1 := chainStatus]> acc.1,
              if 0 <? HealthyCount chainStatus then wrap64 (acc.2 + 1) else acc.2))
          (∅, 0) (map_to_list (chains mc)) in
  {| Proxy := if 0 <? healthyChains then "healthy" else "unhealthy";
     TotalChains := Z.of_nat (size (chains mc));
     HealthyChains := healthyChains;
     Chains := chainsOut;
     Timestamp := now |}.

(** The calls a program can make on a checker. *)
Inductive Call :=
| CallStart
| CallStop
| CallAddChain (chainName : string) (chainConfig : ChainConfig)
| CallRemoveChain (chainName : string).

Definition call (mc : MultiChainChecker) (c : Call) : MultiChainChecker :=
  match c with
  | CallStart => Start mc
  | CallStop => Stop mc
  | CallAddChain chainName chainConfig => AddChain chainName chainConfig mc
  | CallRemoveChain chainName => RemoveChain chainName mc
  end.

End multichain.
Import multichain.

(** The endpoints [currentRPC] can come from. *)
Definition serving (heap : gmap loc RPCEndpoint) (p : loc) : Prop :=
  Healthy (heap !!! p) = true /\ Enabled (heap !!! p) = true /\ URL (heap !!! p) <> "".

#[global] Instance serving_dec heap p : Decision (serving heap p).
Proof. unfold serving. apply _. Defined.

(** A chain with at least one healthy endpoint. *)
Definition chainUp (heap : gmap loc RPCEndpoint) (entry : string * ChainConfig) : Prop :=
  0 < HealthyCount (getChainHealthStatus heap entry.1 entry.2).

#[local] Instance chainUp_dec heap entry : Decision (chainUp heap entry).
Proof. unfold chainUp. apply _. Defined.

Definition multiStep (heap : gmap loc RPCEndpoint)
    (acc : gmap string ChainHealthStatus * Z) (entry : string * ChainConfig)
    : gmap string ChainHealthStatus * Z :=
  let chainStatus := getChainHealthStatus heap entry.1 entry.2 in
  (<[entry.1 := chainStatus]> acc.1,
   if 0 <? HealthyCount chainStatus then wrap64 (acc.2 + 1) else acc.2).

(** ** package health: the rest of [checker.go] *)
Module checker.

(** [stopClosed] says that [close(hc.stopChan)] has run: the channel is
    made once, in [NewChecker]. *)
Record Checker := mkChecker {
  endpoints : list loc;
  config : HealthCheckConfig;
  running : bool;
  stopClosed : bool
}.

Definition NewChecker (endpoints : list loc) (config : HealthCheckConfig) : Checker :=
  mkChecker endpoints config false false.

Definition Start (hc : Checker) : Checker :=
  if running hc then hc
  else {| endpoints := endpoints hc; config := config hc;
          running := true; stopClosed := stopClosed hc |}.

(** [None]: the panic of [close] on a closed channel. *)
Definition Stop (hc : Checker) : option Checker :=
  if negb (running hc) then Some hc
  else if stopClosed hc then None
       else Some {| endpoints := endpoints hc; config := config hc;
                    running := false; stopClosed := true |}.

(** What the probe of one endpoint meets in a pass: the time of the
    verdict, the measured response time and the outcome. *)
Record Round := mkRound {
  roundNow : Z;
  roundResponseTime : Z;
  roundProbe : LegacyProbe
}.

(** One goroutine per entry of [hc.endpoints], each working on its own
    endpoint; [wg.Wait] joins them. *)
Definition performHealthCheck (hc : Checker) (world : loc -> Round)
    (heap : gmap loc RPCEndpoint) : gmap loc RPCEndpoint :=
  foldl (fun heap endpoint =>
           alter (checkEndpoint (config hc) (roundNow (world endpoint))
                    (roundResponseTime (world endpoint)) (roundProbe (world endpoint)))
                 endpoint heap)
        heap (endpoints hc).

Definition GetHealthyEndpoints (hc : Checker) (heap : gmap loc RPCEndpoint) : list loc :=
  foldl (fun healthy endpoint =>
           if IsHealthy (heap !!! endpoint) then healthy ++ [endpoint] else healthy)
        [] (endpoints hc).

Definition GetAllEndpoints (hc : Checker) : list loc := endpoints hc.

Inductive Call := CallStart | CallStop.

Definition call (hc : Checker) (c : Call) : option Checker :=
  match c with
  | CallStart => Some (Start hc)
  | CallStop => Stop hc
  end.

Definition calls (hc : Checker) (cs : list Call) : option Checker :=
  foldl (fun hc c => hc ≫= fun hc => call hc c) (Some hc) cs.

End checker.

(** The block number a probe of the single-chain checker reports, if the
    probe succeeds. *)
Definition legacyBlock (probe : LegacyProbe) : option string :=
  match probe with
  | LegacyResp 200 (Some (mkJSONRPCResponse _ (Some (JString blockNumber)) None _)) =>
      Some blockNumber
  | _ => None
  end.

Definition probeRound (config : HealthCheckConfig) (e : RPCEndpoint) (r : checker.Round)
    : RPCEndpoint :=
  checkEndpoint config (checker.roundNow r) (checker.roundResponseTime r)
    (checker.roundProbe r) e.

(** Three probes of the single-chain checker that are refused. *)
Definition threeRefused : list checker.Round :=
  [checker.mkRound 1000 0 LegacyDoErr; checker.mkRound 2000 0 LegacyDoErr;
   checker.mkRound 3000 0 LegacyDoErr].

(** The calls still to come, in this order, for [Stop] to panic. *)
Definition untilPanic (hc : checker.Checker) : list checker.Call :=
  match checker.running hc, checker.stopClosed hc with
  | false, false => [checker.CallStart; checker.CallStop; checker.CallStart; checker.CallStop]
  | true, false => [checker.CallStop; checker.CallStart; checker.CallStop]
  | false, true => [checker.CallStart; checker.CallStop]
  | true, true => [checker.CallStop]
  end.

(** The disabled endpoint B alone. *)
Definition offOnly : gmap loc RPCEndpoint := {[ 1%nat := endpointOff ]}.

(** ** package proxy: the rest of [server.go] *)
Module server.

Definition selectEndpointByWeight (endpoints : list loc) : M (option loc) :=
  let* sortedEndpoints := getSortedEndpointsByWeight endpoints in
  if (length sortedEndpoints =? 0)%nat then ret None
  else match sortedEndpoints !! 0%nat with
       | Some endpoint => ret (Some endpoint)
       | None => panic
       end.

(** [None] is the nil pointer. *)
Definition selectHealthyEndpointForChain (chainName : string) : M (option loc) :=
  let* healthyEndpoints := getHealthyEndpoints chainName in
  if (length healthyEndpoints =? 0)%nat then ret None
  else selectEndpointByWeight healthyEndpoints.

(** The handler [corsMiddleware] wraps around [next]. *)
Definition corsMiddleware (next : Request -> M unit) (r : Request) : M unit :=
  run headerSet "Access-Control-Allow-Origin" "*" then
  run headerSet "Access-Control-Allow-Methods" "GET, POST, OPTIONS" then
  run headerSet "Access-Control-Allow-Headers"
        "Content-Type, Authorization, Accept, X-Requested-With" then
  run headerSet "Access-Control-Expose-Headers" "Content-Type" then
  if String.eqb (Method r) "OPTIONS" then WriteHeader http.StatusOK
  else next r.

(** A character of the class [[a-zA-Z0-9]]. *)
Definition isAlnum (c : ascii) : bool :=
  let n := nat_of_ascii c in
  ((48 <=? n) && (n <=? 57) || (65 <=? n) && (n <=? 90) || (97 <=? n) && (n <=? 122))%nat.

(** The longest run of such characters at the head of [s], and what
    follows it. *)
Fixpoint alnumRun (s : string) : string * string :=
  match s with
  | EmptyString => (EmptyString, EmptyString)
  | String c rest =>
      if isAlnum c then (String c (alnumRun rest).1, (alnumRun rest).2)
      else (EmptyString, s)
  end.

(** [s.chainPathRegex.FindStringSubmatch(path)] for the pattern
    [^/rpc/([a-zA-Z0-9]+)/?$] compiled in [NewServer]: the match and its
    group, or nil. The character after the group is a slash or the end of
    the text, neither in the class, so the group is the longest run. *)
Definition FindStringSubmatch (path : string) : list string :=
  if strings.HasPrefix path "/rpc/" then
    let group := alnumRun (strings.from 5 path) in
    if negb (String.eqb group.1 "")
       && (String.eqb group.2 "" || String.eqb group.2 "/")
    then [path; group.1]
    else []
  else [].

(** [path] is [r.URL.Path]. *)
Definition handleMultiChainRPC (t : Transport) (r : Request) (path : string) : M unit :=
  let matches := FindStringSubmatch path in
  if negb (length matches =? 2)%nat then
    writeErrorResponse (-32600) "Invalid request path. Use /rpc/{chainName}" None
  else match matches !! 1%nat with
       | Some chainName => handleRPCForChain t r chainName
       | None => panic
       end.

End server.

(** The strings over [[a-zA-Z0-9]]. *)
Fixpoint alnumString (s : string) : bool :=
  match s with
  | EmptyString => true
  | String c rest => server.isAlnum c && alnumString rest
  end.

(** The header map after the loop of [copyResponse] over one key. *)
Definition addValues (key : string) (values : list string) (hdr : http.Header) : http.Header :=
  foldl (fun hdr value => <[key := default [] (hdr !! key) ++ [value]]> hdr) hdr values.

(** The writer after [copyResponse]. *)
Definition copied (resp : http.Response) (rw : ResponseWriter) : ResponseWriter :=
  {| wHeader := foldl (fun hdr kv => addValues kv.1 kv.2 hdr) (wHeader rw)
                      (map_to_list (http.RespHeader resp));
     wStatus := Some (default (http.StatusCode resp) (wStatus rw));
     wBody := wBody rw ++ [Raw (http.Body resp)] |}.

(** The writer after [http.Error]. *)
Definition plainWriter (error : string) (code : Z) (rw : ResponseWriter) : ResponseWriter :=
  {| wHeader := <["X-Content-Type-Options" := ["nosniff"]]>
                  (<["Content-Type" := ["text/plain; charset=utf-8"]]>
                     (delete "Content-Length" (wHeader rw)));
     wStatus := Some (default code (wStatus rw));
     wBody := wBody rw ++ [Raw (error +:+ String "010"%char EmptyString)] |}.

(** The world with another writer. *)
Definition answered (rw : ResponseWriter) (σ : World) : World :=
  {| heap := heap σ; checker := checker σ; w := rw; wire := wire σ |}.

(** The upstream requests for the endpoints [called]. *)
Definition requests (heap : gmap loc RPCEndpoint) (body : string) (headers : http.Header)
    (called : list loc) : list UpstreamRequest :=
  map (fun p => upstreamRequest (URL (heap !!! p)) body headers) called.

(** The writers a handler can leave: that of [http.Error], that of
    [writeErrorResponse], or the copy of a response the client returned. *)
Definition replyOf (t : Transport) (rw rw' : ResponseWriter) : Prop :=
  rw' = plainWriter "Method not allowed" http.StatusMethodNotAllowed rw
  \/ (exists code message data, rw' = errorWriter code message data rw)
  \/ (exists i req resp, clientDo t i req = inr resp /\ rw' = copied resp rw).

(** A POST of declared length 10 whose body read stops after three bytes. *)
Definition truncatedPost : Request :=
  mkRequest "POST" ∅ 10 ("abc", Some "unexpected EOF").

(** The header map once [corsMiddleware] has set its four headers. *)
Definition corsHeader (hdr : http.Header) : http.Header :=
  <["Access-Control-Expose-Headers" := ["Content-Type"]]>
    (<["Access-Control-Allow-Headers" :=
         ["Content-Type, Authorization, Accept, X-Requested-With"]]>
       (<["Access-Control-Allow-Methods" := ["GET, POST, OPTIONS"]]>
          (<["Access-Control-Allow-Origin" := ["*"]]> hdr))).

(** ** package config *)
Module config.

(** The fields of [Config] that [validateConfig] and
    [CreateMultiChainHealthChecker] read. *)
Record Config := mkConfig {
  ServerPort : Z;
  HealthCheck : HealthCheckConfig;
  ProxyTimeout : Z;
  ProxyMaxConnections : Z;
  Chains : list types.Chain;
  ChainEndpoints : gmap string (list loc);
  RPCEndpoints : list loc
}.

(** The loop of [CreateMultiChainHealthChecker] over [c.Chains]; a later
    chain of the same name overwrites an earlier one. *)
Definition chainsConfig (c : Config) : gmap string ChainConfig :=
  foldl (fun chainsConfig chain =>
           if negb (IsEnabled chain) then chainsConfig
           else match ChainEndpoints c !! ChainShortName chain with
                | Some endpoints =>
                    if (length endpoints =? 0)%nat then chainsConfig
                    else <[ChainShortName chain :=
                             {| Chain := chain; Endpoints := endpoints |}]> chainsConfig
                | None => chainsConfig
                end)
        ∅ (Chains c).

Definition CreateMultiChainHealthChecker (c : Config) : MultiChainChecker :=
  NewMultiChainChecker (chainsConfig c) (HealthCheck c).

(** [None] is the nil pointer. *)
Fixpoint chainByName (chains : list types.Chain) (chainName : string) : option types.Chain :=
  match chains with
  | [] => None
  | chain :: rest =>
      if String.eqb (ChainShortName chain) chainName then Some chain
      else chainByName rest chainName
  end.

Definition GetChainByName (c : Config) (chainName : string) : option types.Chain :=
  chainByName (Chains c) chainName.

(** The loop of [validateConfig] over [config.Chains]: the error for the
    first enabled chain without endpoints. *)
Fixpoint enabledChainsServed (c : Config) (chains : list types.Chain) : option string :=
  match chains with
  | [] => None
  | chain :: rest =>
      if IsEnabled chain then
        match ChainEndpoints c !! ChainShortName chain with
        | Some (_ :: _) => enabledChainsServed c rest
        | _ => Some ("enabled chain " +:+ ChainShortName chain
                     +:+ " must have at least one RPC endpoint")
        end
      else enabledChainsServed c rest
  end.

(** The error, [None] for nil. *)
Definition validateConfig (c : Config) : option string :=
  if (length (Chains c) =? 0)%nat && (length (RPCEndpoints c) =? 0)%nat then
    Some "at least one chain or legacy RPC endpoint must be configured"
  else
    match enabledChainsServed c (Chains c) with
    | Some err => Some err
    | None =>
        if (ServerPort c <=? 0) || (65535 <? ServerPort c) then
          Some "server port must be between 1 and 65535"
        else if Interval (HealthCheck c) <=? 0 then
          Some "health check interval must be positive"
        else if Timeout (HealthCheck c) <=? 0 then
          Some "health check timeout must be positive"
        else if Retries (HealthCheck c) <=? 0 then
          Some "health check retries must be positive"
        else if ProxyTimeout c <=? 0 then
          Some "proxy timeout must be positive"
        else if ProxyMaxConnections c <=? 0 then
          Some "max connections must be positive"
        else None
    end.

End config.

(** One turn of the loop of [CreateMultiChainHealthChecker]. *)
Definition registerChain (c : config.Config) (chainsConfig : gmap string ChainConfig)
    (chain : types.Chain) : gmap string ChainConfig :=
  if negb (IsEnabled chain) then chainsConfig
  else match config.ChainEndpoints c !! ChainShortName chain with
       | Some endpoints =>
           if (length endpoints =? 0)%nat then chainsConfig
           else <[ChainShortName chain := {| Chain := chain; Endpoints := endpoints |}]>
                  chainsConfig
       | None => chainsConfig
       end.

(** [chain] is monitored: it is enabled and has endpoints. *)
Definition monitored (c : config.Config) (chain : types.Chain) : Prop :=
  IsEnabled chain = true
  /\ exists endpoint endpoints,
       config.ChainEndpoints c !! ChainShortName chain = Some (endpoint :: endpoints).

(** Chain [ethereum], enabled, with the endpoints at 0 and 1, and a disabled
    chain [sepolia] without endpoints. *)
Definition sepolia : types.Chain := mkChain 2 11155111 "sepolia" "sepolia" true false.

Definition oneChain : config.Config :=
  config.mkConfig 8080 threeRetries 30000 100 [ethereum; sepolia]
    {[ "ethereum" := [0%nat; 1%nat] ]} [].

(** ** package proxy: the health routes of [server.go] *)
Module healthroutes.

(** [strings.TrimLeft], [strings.TrimRight] and [strings.Trim] for a cutset
    of single-byte characters. *)
Fixpoint inCutset (c : ascii) (cutset : string) : bool :=
  match cutset with
  | EmptyString => false
  | String d rest => Ascii.eqb c d || inCutset c rest
  end.

Fixpoint TrimLeft (s cutset : string) : string :=
  match s with
  | EmptyString => EmptyString
  | String c rest => if inCutset c cutset then TrimLeft rest cutset else s
  end.

Fixpoint TrimRight (s cutset : string) : string :=
  match s with
  | EmptyString => EmptyString
  | String c rest =>
      let kept := TrimRight rest cutset in
      if inCutset c cutset && String.eqb kept "" then EmptyString else String c kept
  end.

Definition Trim (s cutset : string) : string := TrimRight (TrimLeft s cutset) cutset.

(** [strings.Split] for a separator of one byte; the empty string gives
    one empty part. *)
Fixpoint Split (s : string) (sep : ascii) : list string :=
  match s with
  | EmptyString => [EmptyString]
  | String c rest =>
      if Ascii.eqb c sep then EmptyString :: Split rest sep
      else match Split rest sep with
           | part :: parts => String c part :: parts
           | [] => [String c EmptyString]
           end
  end.

(** [types.HealthStatus]; its fields carry the prefix [Legacy] here. *)
Record HealthStatus := mkHealthStatus {
  LegacyProxy : string;
  LegacyCurrentRPC : string;
  LegacyRPCEndpoints : list loc;
  LegacyChain : string
}.

(** What goes out as the body: the text of [http.Error], or a value
    handed to [json.NewEncoder(w).Encode]. *)
Inductive Payload :=
| Text (s : string)
| EncodedHealth (v : HealthStatus)
| EncodedMulti (v : MultiChainHealthStatus).

(** The [http.ResponseWriter] of these two handlers, which touch the header
    map after [WriteHeader]: [live] is the map [w.Header()] returns, [out]
    the status line with the header map as it was when the status line was
    written, which is what the client receives, and [payloads] the writes.
    The content type that [Write] would sniff for a response without one
    is left out. *)
Record Writer := mkWriter {
  live : http.Header;
  out : option (Z * http.Header);
  payloads : list Payload
}.

Definition Set_ (key value : string) (rw : Writer) : Writer :=
  {| live := <[key := [value]]> (live rw); out := out rw; payloads := payloads rw |}.

Definition Del (key : string) (rw : Writer) : Writer :=
  {| live := delete key (live rw); out := out rw; payloads := payloads rw |}.

Definition WriteHeader (code : Z) (rw : Writer) : Writer :=
  {| live := live rw;
     out := Some (default (code, live rw) (out rw));
     payloads := payloads rw |}.

Definition Write (p : Payload) (rw : Writer) : Writer :=
  let rw := WriteHeader http.StatusOK rw in
  {| live := live rw; out := out rw; payloads := payloads rw ++ [p] |}.

(** [http.Error] of the standard library. *)
Definition Error (error : string) (code : Z) (rw : Writer) : Writer :=
  let rw := Del "Content-Length" rw in
  let rw := Set_ "Content-Type" "text/plain; charset=utf-8" rw in
  let rw := Set_ "X-Content-Type-Options" "nosniff" rw in
  let rw := WriteHeader code rw in
  Write (Text (error +:+ String "010"%char EmptyString)) rw.

Definition StatusBadRequest : Z := 400.

Definition StatusNotFound : Z := 404.

Definition StatusServiceUnavailable : Z := 503.

(** [method] is [r.Method], [now] the reading of [time.Now] in
    [GetMultiChainStatus]. *)
Definition handleMultiChainHealth (mc : MultiChainChecker) (heap : gmap loc RPCEndpoint)
    (now : Z) (method : string) (rw : Writer) : Writer :=
  if negb (String.eqb method "GET") then
    Error "Method not allowed" http.StatusMethodNotAllowed rw
  else
    let multiChainStatus := GetMultiChainStatus mc heap now in
    let rw := if HealthyChains multiChainStatus =? 0
              then WriteHeader StatusServiceUnavailable rw else rw in
    let rw := Set_ "Content-Type" "application/json" rw in
    Write (EncodedMulti multiChainStatus) rw.

(** [path] is [r.URL.Path]. *)
Definition handleChainHealth (mc : MultiChainChecker) (heap : gmap loc RPCEndpoint)
    (method path : string) (rw : Writer) : Writer :=
  if negb (String.eqb method "GET") then
    Error "Method not allowed" http.StatusMethodNotAllowed rw
  else
    let pathParts := Split (Trim path "/") "/"%char in
    match pathParts with
    | [first; chainName] =>
        if negb (String.eqb first "health") then
          Error "Invalid path format. Use /health/{chainName}" StatusBadRequest rw
        else
          match GetChainStatus mc heap chainName with
          | None => Error ("Chain " +:+ chainName +:+ " not found") StatusNotFound rw
          | Some chainStatus =>
              let legacyStatus :=
                {| LegacyProxy := "healthy";
                   LegacyCurrentRPC := CurrentRPC chainStatus;
                   LegacyRPCEndpoints :=
                     HealthyEndpoints chainStatus ++ UnhealthyEndpoints chainStatus;
                   LegacyChain := chainName |} in
              let '(legacyStatus, rw) :=
                if HealthyCount chainStatus =? 0 then
                  ({| LegacyProxy := "unhealthy";
                      LegacyCurrentRPC := LegacyCurrentRPC legacyStatus;
                      LegacyRPCEndpoints := LegacyRPCEndpoints legacyStatus;
                      LegacyChain := LegacyChain legacyStatus |},
                   WriteHeader StatusServiceUnavailable rw)
                else (legacyStatus, rw) in
              let rw := Set_ "Content-Type" "application/json" rw in
              Write (EncodedHealth legacyStatus) rw
          end
    | _ => Error "Invalid path format. Use /health/{chainName}" StatusBadRequest rw
    end.

End healthroutes.

(** The strings without a slash. *)
Fixpoint noSlash (s : string) : bool :=
  match s with
  | EmptyString => true
  | String c rest => negb (Ascii.eqb c "/"%char) && noSlash rest
  end.

(** The writer a handler is given: nothing is out yet. *)
Definition fresh (hdr : http.Header) : healthroutes.Writer :=
  healthroutes.mkWriter hdr None [].

(** * Further properties *)

(** * More of the prober *)

Lemma attempts_first_response p resp : forall fuel k attempt e,
  (k < fuel)%nat ->
  (forall i, (attempt <= i < attempt + k)%nat -> exists err, Do p i = DoErr err) ->
  (forall i, (attempt <= i <= attempt + k)%nat -> (0 < i)%nat -> ctxDone p i = false) ->
  Do p (attempt + k)%nat = DoOk resp ->
  attempts p fuel attempt e =
  (processHealthCheckResponse (now p (attempt + k)%nat) (since p (attempt + k)%nat) resp e).1.
Proof.
  induction fuel as [| fuel IH]; intros k attempt e Hk Herr Hctx Hdo; [lia |].
  simpl.
  assert (Hc : (0 <? attempt)%nat && ctxDone p attempt = false).
  { destruct (0 <? attempt)%nat eqn:E; [| reflexivity]. simpl.
    apply Hctx; [lia |]. by apply Nat.ltb_lt in E. }
  rewrite Hc.
  destruct k as [| k].
  - rewrite Nat.add_0_r in *. rewrite Hdo.
    pose proof (processHealthCheckResponse_done (now p attempt) (since p attempt) resp e) as Hd.
    destruct (processHealthCheckResponse (now p attempt) (since p attempt) resp e) as [e' d].
    simpl in *. by rewrite Hd.
  - destruct (Herr attempt) as [err ->]; [lia |].
    replace (attempt + S k)%nat with (S attempt + k)%nat in * by lia.
    apply IH; auto.
    + lia.
    + intros i Hi. apply Herr. lia.
    + intros i Hi. apply Hctx. lia.
Qed.

(** X1. In a pass of the multi-chain prober the first attempt that gets any
    HTTP response ends the pass: after k attempts that failed in transport (k
    below Retries, the context not done before a retry), the endpoint is left
    exactly as processHealthCheckResponse leaves it for that response, good or
    bad. A bad answer is not retried. *)
Theorem first_response_decides config p e k resp :
  marshalErr p = false ->
  health.newRequestErr p = false ->
  (k < Z.to_nat (Retries config))%nat ->
  (forall i, (i < k)%nat -> exists err, Do p i = DoErr err) ->
  (forall i, (0 < i <= k)%nat -> ctxDone p i = false) ->
  Do p k = DoOk resp ->
  checkEndpointHealth config p e
  = (processHealthCheckResponse (now p k) (since p k) resp e).1.
Proof.
  intros Hm Hn Hk Herr Hctx Hdo. unfold checkEndpointHealth. rewrite Hm, Hn.
  rewrite (attempts_first_response p resp (Z.to_nat (Retries config)) k 0%nat e); simpl; auto.
  - intros i Hi. apply Herr. lia.
  - intros i Hi Hpos. apply Hctx. lia.
Qed.

Lemma attempts_bounded p p' : forall fuel attempt e,
  (forall i, (attempt <= i < attempt + fuel)%nat ->
             Do p i = Do p' i /\ ctxDone p i = ctxDone p' i) ->
  (forall i, (attempt <= i <= attempt + fuel)%nat ->
             now p i = now p' i /\ since p i = since p' i) ->
  attempts p fuel attempt e = attempts p' fuel attempt e.
Proof.
  induction fuel as [| fuel IH]; intros attempt e Hnet Hclock; simpl.
  - destruct (Hclock attempt) as [-> ->]; [lia | reflexivity].
  - destruct (Hnet attempt) as [<- <-]; [lia |].
    destruct (Hclock attempt) as [<- <-]; [lia |].
    destruct ((0 <? attempt)%nat && ctxDone p attempt); [reflexivity |].
    destruct (Do p attempt) as [err | resp].
    + apply IH.
      * intros i Hi. apply Hnet. lia.
      * intros i Hi. apply Hclock. lia.
    + destruct (processHealthCheckResponse (now p attempt) (since p attempt) resp e) as [e' d].
      destruct d; [reflexivity |]. apply IH.
      * intros i Hi. apply Hnet. lia.
      * intros i Hi. apply Hclock. lia.
Qed.

(** X2. A pass for one endpoint looks at no more than Retries attempts: two
    networks that agree on the attempts below Retries, and on the clock
    readings up to Retries, leave the endpoint in the same state. With Retries
    at most 0 no attempt is looked at. *)
Theorem pass_makes_at_most_retries_attempts config p p' e :
  marshalErr p = marshalErr p' ->
  health.newRequestErr p = health.newRequestErr p' ->
  (forall i, (i < Z.to_nat (Retries config))%nat ->
             Do p i = Do p' i /\ ctxDone p i = ctxDone p' i) ->
  (forall i, (i <= Z.to_nat (Retries config))%nat ->
             now p i = now p' i /\ since p i = since p' i) ->
  checkEndpointHealth config p e = checkEndpointHealth config p' e.
Proof.
  intros Hm Hn Hnet Hclock. unfold checkEndpointHealth. rewrite <- Hm, <- Hn.
  destruct (Hclock 0%nat) as [<- _]; [lia |].
  destruct (marshalErr p); [reflexivity |].
  destruct (health.newRequestErr p); [reflexivity |].
  apply attempts_bounded.
  - intros i Hi. apply Hnet. lia.
  - intros i Hi. apply Hclock. lia.
Qed.

(** ** What a pass leaves alone *)

Lemma sameConfig_refl e : sameConfig e e.
Proof. repeat split. Qed.

Lemma sameConfig_trans e1 e2 e3 : sameConfig e1 e2 -> sameConfig e2 e3 -> sameConfig e1 e3.
Proof. unfold sameConfig. intros H1 H2. destruct_and!. split_and!; congruence. Qed.

Lemma attempts_sameConfig p fuel : forall attempt e, sameConfig e (attempts p fuel attempt e).
Proof.
  induction fuel as [| fuel IH]; intros attempt e; simpl.
  - repeat split.
  - destruct ((0 <? attempt)%nat && ctxDone p attempt); [repeat split |].
    destruct (Do p attempt) as [err | resp]; [apply IH |].
    rewrite processHealthCheckResponse_blockOf.
    destruct (blockOf resp); repeat split.
Qed.

Lemma checkEndpointHealth_sameConfig config p e :
  sameConfig e (checkEndpointHealth config p e).
Proof.
  unfold checkEndpointHealth.
  destruct (marshalErr p); [repeat split |].
  destruct (health.newRequestErr p); [repeat split |].
  apply attempts_sameConfig.
Qed.

Lemma passRel_refl h : passRel h h.
Proof. intros q. destruct (h !! q); [split; [apply sameConfig_refl | auto] | exact I]. Qed.

Lemma passRel_trans h1 h2 h3 : passRel h1 h2 -> passRel h2 h3 -> passRel h1 h3.
Proof.
  intros H12 H23 q. specialize (H12 q). specialize (H23 q).
  destruct (h1 !! q) as [e1 |], (h2 !! q) as [e2 |], (h3 !! q) as [e3 |]; try done.
  destruct H12 as [S12 D12], H23 as [S23 D23]. split.
  - eapply sameConfig_trans; eauto.
  - intros Hd. rewrite D23; [auto |]. destruct S12 as (_ & _ & _ & _ & -> & _). exact Hd.
Qed.

Lemma Enabled_total (h : gmap loc RPCEndpoint) (q : loc) :
  Enabled (h !!! q) = true -> exists e, h !! q = Some e /\ Enabled e = true.
Proof.
  rewrite lookup_total_alt. destruct (h !! q) as [e |]; simpl; [eauto | discriminate].
Qed.

Lemma checkStep_passRel config world h endpoint :
  passRel h (if negb (Enabled (h !!! endpoint)) then h
             else alter (checkEndpointHealth config (world endpoint)) endpoint h).
Proof.
  destruct (Enabled (h !!! endpoint)) eqn:E; simpl; [| apply passRel_refl].
  apply Enabled_total in E as (e & He & Hen).
  intros q. destruct (decide (q = endpoint)) as [-> |].
  - rewrite lookup_alter_eq, He. simpl. split.
    + apply checkEndpointHealth_sameConfig.
    + congruence.
  - rewrite lookup_alter_ne by done.
    destruct (h !! q); [split; [apply sameConfig_refl | auto] | exact I].
Qed.

Lemma checkChainHealth_passRel config world chainConfig h :
  passRel h (checkChainHealth config world chainConfig h).
Proof.
  unfold checkChainHealth. generalize (Endpoints chainConfig) as l. intros l. revert h.
  induction l as [| p l IH]; intros h; simpl; [apply passRel_refl |].
  eapply passRel_trans; [apply checkStep_passRel | apply IH].
Qed.

Lemma checkChainHealth_outside config world (l : list loc) : forall (h : gmap loc RPCEndpoint) q,
  q ∉ l ->
  foldl (fun heap endpoint =>
           if negb (Enabled (heap !!! endpoint)) then heap
           else alter (checkEndpointHealth config (world endpoint)) endpoint heap) h l !! q
  = h !! q.
Proof.
  induction l as [| p l IH]; intros h q Hq; simpl; [reflexivity |].
  apply not_elem_of_cons in Hq as [Hne Hq].
  rewrite IH by exact Hq.
  destruct (negb (Enabled (h !!! p))); [reflexivity |].
  by rewrite lookup_alter_ne.
Qed.

(** X3. A pass over a chain leaves every endpoint outside the chain's list and
    every disabled endpoint unchanged, never changes ID, Name, URL, Weight,
    Enabled, ChainID or ChainName of any endpoint, and allocates no endpoint. *)
Theorem pass_leaves_configuration config world chainConfig heap q :
  (q ∉ Endpoints chainConfig \/ Enabled (heap !!! q) = false ->
   checkChainHealth config world chainConfig heap !! q = heap !! q)
  /\ (forall e', checkChainHealth config world chainConfig heap !! q = Some e' ->
                exists e, heap !! q = Some e /\ sameConfig e e')
  /\ (heap !! q = None -> checkChainHealth config world chainConfig heap !! q = None).
Proof.
  pose proof (checkChainHealth_passRel config world chainConfig heap q) as Hrel.
  split_and!.
  - intros [Hout | Hoff].
    + by apply checkChainHealth_outside.
    + rewrite lookup_total_alt in Hoff.
      destruct (heap !! q) as [e |] eqn:E,
               (checkChainHealth config world chainConfig heap !! q) as [e' |]; try done.
      simpl in Hoff. destruct Hrel as [_ Hsame]. by rewrite Hsame.
  - intros e' He'. rewrite He' in Hrel.
    destruct (heap !! q) as [e |]; [| done]. exists e. by destruct Hrel.
  - intros Hnone. rewrite Hnone in Hrel.
    by destruct (checkChainHealth config world chainConfig heap !! q).
Qed.

Lemma checkChainHealth_once_list config world (l : list loc) :
  forall (h : gmap loc RPCEndpoint) q e,
    NoDup l -> q ∈ l -> h !! q = Some e -> Enabled e = true ->
    foldl (fun heap endpoint =>
             if negb (Enabled (heap !!! endpoint)) then heap
             else alter (checkEndpointHealth config (world endpoint)) endpoint heap) h l !! q
    = Some (checkEndpointHealth config (world q) e).
Proof.
  induction l as [| p l IH]; intros h q e Hnd Hin Hq Hen; [by apply elem_of_nil in Hin |].
  apply NoDup_cons in Hnd as [Hp Hnd]. simpl.
  destruct (decide (q = p)) as [-> | Hne].
  - rewrite checkChainHealth_outside by exact Hp.
    rewrite lookup_total_alt, Hq. simpl. rewrite Hen. simpl.
    by rewrite lookup_alter_eq, Hq.
  - apply elem_of_cons in Hin as [? | Hin]; [done |].
    apply IH; auto.
    destruct (negb (Enabled (h !!! p))); [exact Hq |].
    by rewrite lookup_alter_ne.
Qed.

(** X4. If the chain's endpoint list holds no pointer twice, a pass leaves
    each enabled endpoint of the list exactly as one run of
    checkEndpointHealth on its state before the pass leaves it. *)
Theorem pass_probes_each_enabled_endpoint_once config world chainConfig heap q e :
  NoDup (Endpoints chainConfig) ->
  q ∈ Endpoints chainConfig ->
  heap !! q = Some e ->
  Enabled e = true ->
  checkChainHealth config world chainConfig heap !! q
  = Some (checkEndpointHealth config (world q) e).
Proof. intros. by apply checkChainHealth_once_list. Qed.

Lemma disabledDown_pass config world chainConfig heap :
  disabledDown heap -> disabledDown (checkChainHealth config world chainConfig heap).
Proof.
  intros Hinv q e' He' Hoff.
  pose proof (checkChainHealth_passRel config world chainConfig heap q) as Hrel.
  rewrite He' in Hrel. destruct (heap !! q) as [e |] eqn:E; [| done].
  destruct Hrel as [Hsame Hkeep].
  assert (Enabled e = false) as He by (destruct Hsame as (_ & _ & _ & _ & <- & _); exact Hoff).
  rewrite (Hkeep He). exact (Hinv q e E He).
Qed.

Lemma disabledDown_passes config rounds : forall heap,
  disabledDown heap -> disabledDown (passes config rounds heap).
Proof.
  unfold passes. induction rounds as [| r rounds IH]; intros heap Hinv; simpl; [exact Hinv |].
  apply IH, disabledDown_pass, Hinv.
Qed.

(** X5. If no disabled endpoint is flagged healthy, this still holds after any
    number of passes over any chain configurations, so every endpoint that
    GetHealthyEndpoints returns afterwards is both healthy and enabled. *)
Theorem healthy_endpoints_enabled_after_passes config rounds heap mc chainName p :
  disabledDown heap ->
  p ∈ GetHealthyEndpoints mc (passes config rounds heap) chainName ->
  Healthy (passes config rounds heap !!! p) = true
  /\ Enabled (passes config rounds heap !!! p) = true.
Proof.
  intros Hinv Hp.
  apply (disabledDown_passes config rounds) in Hinv.
  unfold GetHealthyEndpoints in Hp.
  destruct (chains mc !! chainName) as [chainConfig |]; [| by apply elem_of_nil in Hp].
  rewrite healthy_foldl in Hp. simpl in Hp.
  apply list_elem_of_filter in Hp as [Hh _]. split; [exact Hh |].
  rewrite lookup_total_alt in *.
  destruct (passes config rounds heap !! p) as [e |] eqn:E; simpl in *; [| discriminate].
  destruct (Enabled e) eqn:Een; [reflexivity |].
  rewrite (Hinv p e E Een) in Hh. discriminate.
Qed.

Lemma disabledDown_oneIdle : disabledDown oneIdle.
Proof.
  unfold disabledDown, oneIdle.
  apply map_Forall_insert_2; [discriminate |].
  apply map_Forall_singleton. reflexivity.
Qed.

Lemma healthy_endpoints_enabled_after_passes_witness :
  Healthy (passes threeRetries [(allAnswer, ethereumConfig)] oneIdle !!! 0%nat) = true
  /\ Enabled (passes threeRetries [(allAnswer, ethereumConfig)] oneIdle !!! 0%nat) = true.
Proof.
  apply (healthy_endpoints_enabled_after_passes threeRetries
           [(allAnswer, ethereumConfig)] oneIdle registry "ethereum" 0%nat).
  - exact disabledDown_oneIdle.
  - vm_compute. apply list_elem_of_In. left. reflexivity.
Defined.

Lemma pass_probes_each_enabled_endpoint_once_witness :
  checkChainHealth threeRetries allAnswer ethereumConfig oneIdle !! 0%nat
  = Some (checkEndpointHealth threeRetries (allAnswer 0%nat) endpointDown).
Proof.
  apply (pass_probes_each_enabled_endpoint_once threeRetries allAnswer ethereumConfig
           oneIdle 0%nat endpointDown).
  - apply NoDup_cons. split; [| apply NoDup_singleton].
    intros H. apply list_elem_of_singleton in H. discriminate.
  - apply list_elem_of_In. left. reflexivity.
  - reflexivity.
  - reflexivity.
Defined.

Lemma pass_makes_at_most_retries_attempts_witness :
  checkEndpointHealth threeRetries refused endpointA
  = checkEndpointHealth threeRetries answeredTooLate endpointA.
Proof.
  apply (pass_makes_at_most_retries_attempts threeRetries refused answeredTooLate endpointA).
  - reflexivity.
  - reflexivity.
  - intros i Hi. change (Z.to_nat (Retries threeRetries)) with 3%nat in Hi.
    split; [| reflexivity]. simpl.
    destruct (i <? 3)%nat eqn:E; [reflexivity |]. apply Nat.ltb_ge in E. lia.
  - intros i Hi. split; reflexivity.
Defined.

Lemma first_response_decides_witness :
  checkEndpointHealth threeRetries serverError endpointA
  = (processHealthCheckResponse 1000 7 (http.mkResponse 500 ∅ "" None) endpointA).1.
Proof.
  apply (first_response_decides threeRetries serverError endpointA 0%nat
           (http.mkResponse 500 ∅ "" None)).
  - reflexivity.
  - reflexivity.
  - vm_compute. lia.
  - intros i Hi. lia.
  - intros i Hi. lia.
  - reflexivity.
Defined.

(** * The status views *)

Lemma statusStep_foldl (heap : gmap loc RPCEndpoint) (l : list loc) :
  forall healthy unhealthy cur,
    exists cur',
      foldl (statusStep heap) (healthy, unhealthy, cur) l
      = (healthy ++ filter (fun p => Healthy (heap !!! p) = true) l,
         unhealthy ++ filter (fun p => Healthy (heap !!! p) <> true) l,
         cur').
Proof.
  induction l as [| p l IH]; intros healthy unhealthy cur; simpl.
  - exists cur. by rewrite !app_nil_r.
  - rewrite !filter_cons. unfold IsHealthy.
    destruct (Healthy (heap !!! p)) eqn:E.
    + rewrite decide_True by reflexivity. rewrite decide_False by auto.
      edestruct IH as [cur' ->]. exists cur'. by rewrite <- app_assoc.
    + rewrite decide_False by discriminate. rewrite decide_True by discriminate.
      edestruct IH as [cur' ->]. exists cur'. by rewrite <- app_assoc.
Qed.

Lemma filter_split_perm (P : loc -> Prop) `{!forall x, Decision (P x)} (l : list loc) :
  filter P l ++ filter (fun x => ~ P x) l ≡ₚ l.
Proof.
  induction l as [| x l IH]; [reflexivity |].
  rewrite !filter_cons. destruct (decide (P x)).
  - rewrite decide_False by auto. simpl. by rewrite IH.
  - rewrite decide_True by auto. rewrite <- Permutation_middle. by rewrite IH.
Qed.

Lemma getChainHealthStatus_lists heap chainName chainConfig :
  let st := getChainHealthStatus heap chainName chainConfig in
  HealthyEndpoints st = filter (fun p => Healthy (heap !!! p) = true) (Endpoints chainConfig)
  /\ UnhealthyEndpoints st
     = filter (fun p => Healthy (heap !!! p) <> true) (Endpoints chainConfig)
  /\ HealthyCount st = Z.of_nat (length (HealthyEndpoints st))
  /\ TotalEndpoints st = Z.of_nat (length (Endpoints chainConfig)).
Proof.
  unfold getChainHealthStatus.
  destruct (statusStep_foldl heap (Endpoints chainConfig) [] [] "") as [cur' ->].
  simpl. by split_and!.
Qed.

(** X6. The status of a chain splits the chain's endpoints: HealthyEndpoints
    are the healthy ones and UnhealthyEndpoints the others, each in list
    order, together a permutation of the list; HealthyCount plus the number of
    unhealthy endpoints is TotalEndpoints, and HealthyCount lies between 0 and
    TotalEndpoints. *)
Theorem chain_status_partitions heap chainName chainConfig :
  let st := getChainHealthStatus heap chainName chainConfig in
  HealthyEndpoints st = filter (fun p => Healthy (heap !!! p) = true) (Endpoints chainConfig)
  /\ UnhealthyEndpoints st
     = filter (fun p => Healthy (heap !!! p) <> true) (Endpoints chainConfig)
  /\ HealthyEndpoints st ++ UnhealthyEndpoints st ≡ₚ Endpoints chainConfig
  /\ HealthyCount st + Z.of_nat (length (UnhealthyEndpoints st)) = TotalEndpoints st
  /\ 0 <= HealthyCount st <= TotalEndpoints st.
Proof.
  destruct (getChainHealthStatus_lists heap chainName chainConfig) as (Hh & Hu & Hc & Ht).
  cbn zeta in *. rewrite Hc, Ht, Hh, Hu.
  pose proof (filter_split_perm (fun p => Healthy (heap !!! p) = true) (Endpoints chainConfig))
    as Hperm.
  pose proof (Permutation_length Hperm) as Hlen. rewrite length_app in Hlen.
  split_and!; try reflexivity; try exact Hperm; lia.
Qed.

(** X7. For a registered chain GetChainStatus reports the very list that
    GetHealthyEndpoints returns, HealthyCount is its length and TotalEndpoints
    is the length of GetAllEndpoints; for an unknown chain it returns nil and
    both lists are empty. *)
Theorem chain_status_agrees_with_forwarder mc heap chainName :
  match GetChainStatus mc heap chainName with
  | Some st =>
      HealthyEndpoints st = GetHealthyEndpoints mc heap chainName
      /\ HealthyCount st = Z.of_nat (length (GetHealthyEndpoints mc heap chainName))
      /\ TotalEndpoints st = Z.of_nat (length (GetAllEndpoints mc chainName))
  | None =>
      chains mc !! chainName = None
      /\ GetHealthyEndpoints mc heap chainName = []
      /\ GetAllEndpoints mc chainName = []
  end.
Proof.
  unfold GetChainStatus, GetHealthyEndpoints, GetAllEndpoints.
  destruct (chains mc !! chainName) as [chainConfig |]; [| done].
  rewrite healthy_foldl. simpl.
  destruct (getChainHealthStatus_lists heap chainName chainConfig) as (Hh & _ & Hc & Ht).
  cbn zeta in *. by rewrite Hc, Ht, Hh.
Qed.

Lemma statusStep_cur (heap : gmap loc RPCEndpoint) healthy unhealthy cur p :
  (statusStep heap (healthy, unhealthy, cur) p).2
  = if String.eqb cur "" then
      (if decide (serving heap p) then URL (heap !!! p) else "")
    else cur.
Proof.
  unfold statusStep, IsHealthy.
  destruct (String.eqb cur "") eqn:E.
  - apply String.eqb_eq in E. subst cur.
    destruct (decide (serving heap p)) as [(Hh & He & Hu) | Hs].
    + by rewrite Hh, He.
    + destruct (Healthy (heap !!! p)) eqn:Hh, (Enabled (heap !!! p)) eqn:He;
        simpl; try reflexivity.
      destruct (String.eqb (URL (heap !!! p)) "") eqn:Hu; [by apply String.eqb_eq in Hu |].
      exfalso. apply Hs. split_and!; auto. by apply String.eqb_neq.
  - destruct (Healthy (heap !!! p)); simpl; reflexivity.
Qed.

Lemma statusStep_current (heap : gmap loc RPCEndpoint) (l : list loc) :
  forall healthy unhealthy cur,
    (foldl (statusStep heap) (healthy, unhealthy, cur) l).2
    = if String.eqb cur "" then
        match list_find (serving heap) l with
        | Some (_, p) => URL (heap !!! p)
        | None => ""
        end
      else cur.
Proof.
  induction l as [| p l IH]; intros healthy unhealthy cur.
  - simpl. destruct (String.eqb cur "") eqn:E; [| reflexivity].
    by apply String.eqb_eq in E.
  - cbn [foldl].
    pose proof (statusStep_cur heap healthy unhealthy cur p) as Hstep.
    destruct (statusStep heap (healthy, unhealthy, cur) p) as [[h' u'] cur'].
    simpl in Hstep. rewrite IH. subst cur'. cbn [list_find].
    destruct (String.eqb cur "") eqn:E; [| by rewrite E].
    case_decide as Hs.
    + destruct Hs as (_ & _ & Hu). apply String.eqb_neq in Hu. by rewrite Hu.
    + simpl. by destruct (list_find (serving heap) l) as [[? ?] |].
Qed.

(** X8. CurrentRPC of a chain's status is the URL of the first endpoint of the
    list that is healthy, enabled and has a non-empty URL, and the empty
    string if there is none. *)
Theorem current_rpc_is_first_serving heap chainName chainConfig :
  CurrentRPC (getChainHealthStatus heap chainName chainConfig)
  = match list_find (serving heap) (Endpoints chainConfig) with
    | Some (_, p) => URL (heap !!! p)
    | None => ""
    end.
Proof.
  unfold getChainHealthStatus.
  pose proof (statusStep_current heap (Endpoints chainConfig) [] [] "") as H.
  destruct (foldl (statusStep heap) ([], [], "") (Endpoints chainConfig)) as [[h u] c].
  simpl in *. exact H.
Qed.

Lemma multiStep_chains heap name (l : list (string * ChainConfig)) :
  forall acc,
    NoDup l.*1 ->
    (foldl (multiStep heap) acc l).1 !! name
    = match (list_to_map l : gmap string ChainConfig) !! name with
      | Some chainConfig => Some (getChainHealthStatus heap name chainConfig)
      | None => acc.1 !! name
      end.
Proof.
  induction l as [| [k c] l IH]; intros acc Hnd; [reflexivity |].
  apply NoDup_cons in Hnd as [Hk Hnd]. cbn [foldl]. rewrite IH by exact Hnd.
  cbn [list_to_map foldr]. simpl.
  destruct (decide (name = k)) as [-> | Hne].
  - rewrite (not_elem_of_list_to_map_1 _ _ Hk). by rewrite !lookup_insert_eq.
  - by rewrite !lookup_insert_ne by done.
Qed.

Lemma multiStep_count heap (l : list (string * ChainConfig)) :
  forall acc,
    0 <= acc.2 ->
    acc.2 + Z.of_nat (length l) <= maxInt64 ->
    (foldl (multiStep heap) acc l).2
    = acc.2 + Z.of_nat (length (filter (chainUp heap) l)).
Proof.
  induction l as [| e l IH]; intros acc H0 Hmax; [simpl; lia |].
  cbn [foldl]. rewrite filter_cons. simpl length in Hmax.
  pose proof (length_filter (chainUp heap) l) as Hle.
  unfold multiStep at 2. unfold chainUp at 2.
  destruct (0 <? HealthyCount (getChainHealthStatus heap e.1 e.2)) eqn:E.
  - apply Z.ltb_lt in E. rewrite decide_True by exact E.
    rewrite IH; simpl; rewrite wrap64_small; unfold maxInt64 in *; simpl length; lia.
  - apply Z.ltb_ge in E. rewrite decide_False by lia.
    rewrite IH; simpl; lia.
Qed.

Lemma chainUp_healthy heap mc name chainConfig :
  chains mc !! name = Some chainConfig ->
  chainUp heap (name, chainConfig) <-> GetHealthyEndpoints mc heap name <> [].
Proof.
  intros Hc. unfold chainUp. simpl.
  destruct (getChainHealthStatus_lists heap name chainConfig) as (Hh & _ & -> & _).
  cbn zeta in Hh. rewrite Hh. unfold GetHealthyEndpoints. rewrite Hc, healthy_foldl. simpl.
  destruct (filter _ (Endpoints chainConfig)); simpl; split; try done; lia.
Qed.

Lemma GetMultiChainStatus_fold mc heap now :
  GetMultiChainStatus mc heap now
  = let r := foldl (multiStep heap) (∅, 0) (map_to_list (chains mc)) in
    {| Proxy := if 0 <? r.2 then "healthy" else "unhealthy";
       TotalChains := Z.of_nat (size (chains mc));
       HealthyChains := r.2;
       Chains := r.1;
       Timestamp := now |}.
Proof.
  unfold GetMultiChainStatus.
  match goal with
  | |- (let '(_, _) := foldl ?f _ _ in _) = _ => change f with (multiStep heap)
  end.
  by destruct (foldl (multiStep heap) (∅, 0) (map_to_list (chains mc))).
Qed.

Lemma healthyChains_count (mc : MultiChainChecker) (heap : gmap loc RPCEndpoint) (now : Z) :
  Z.of_nat (size (chains mc)) <= maxInt64 ->
  HealthyChains (GetMultiChainStatus mc heap now)
  = Z.of_nat (size (filter (fun entry => GetHealthyEndpoints mc heap entry.1 <> [])
                           (chains mc))).
Proof.
  intros Hmax. rewrite GetMultiChainStatus_fold. cbn zeta. cbn [HealthyChains].
  pose proof (multiStep_count heap (map_to_list (chains mc)) (∅, 0)) as Hcount.
  cbn [snd] in Hcount. rewrite length_map_to_list in Hcount.
  specialize (Hcount ltac:(lia) ltac:(lia)).
  assert (Hfilter : filter (chainUp heap) (map_to_list (chains mc))
                    ≡ₚ map_to_list (filter (fun entry => GetHealthyEndpoints mc heap entry.1 <> [])
                                          (chains mc))).
  { apply NoDup_Permutation.
    - apply NoDup_filter, NoDup_map_to_list.
    - apply NoDup_map_to_list.
    - intros [name cfg]. rewrite list_elem_of_filter, !elem_of_map_to_list, map_lookup_filter_Some.
      simpl. split.
      + intros [Hup Hc]. split; [done |]. by apply (chainUp_healthy heap mc name cfg Hc).
      + intros [Hc Hh]. split; [| done]. by apply (chainUp_healthy heap mc name cfg Hc). }
  rewrite Hcount, Hfilter, length_map_to_list. lia.
Qed.

Lemma healthy_chain_exists (mc : MultiChainChecker) (heap : gmap loc RPCEndpoint) :
  0 < Z.of_nat (size (filter (fun entry : string * ChainConfig =>
                                GetHealthyEndpoints mc heap entry.1 <> []) (chains mc)))
  <-> exists chainName, GetHealthyEndpoints mc heap chainName <> [].
Proof.
  split.
  - intros Hpos.
    destruct (map_to_list (filter (fun entry : string * ChainConfig =>
                GetHealthyEndpoints mc heap entry.1 <> []) (chains mc))) as [| [name cfg] l] eqn:El.
    + apply map_to_list_empty_iff in El. rewrite El, map_size_empty in Hpos. lia.
    + assert (Hin : (name, cfg) ∈ map_to_list (filter (fun entry : string * ChainConfig =>
                GetHealthyEndpoints mc heap entry.1 <> []) (chains mc)))
        by (rewrite El; left).
      apply elem_of_map_to_list, map_lookup_filter_Some in Hin as [_ Hh]. by exists name.
  - intros [name Hh].
    destruct (chains mc !! name) as [cfg |] eqn:Hc.
    + assert (Hl : filter (fun entry : string * ChainConfig =>
                GetHealthyEndpoints mc heap entry.1 <> []) (chains mc) !! name = Some cfg)
        by (by apply map_lookup_filter_Some).
      destruct (decide (size (filter (fun entry : string * ChainConfig =>
                GetHealthyEndpoints mc heap entry.1 <> []) (chains mc)) = 0%nat)) as [E | E];
        [| lia].
      apply map_size_empty_iff in E. rewrite E in Hl. by rewrite lookup_empty in Hl.
    + exfalso. apply Hh. unfold GetHealthyEndpoints. by rewrite Hc.
Qed.

(** No chain is up: the counter of [GetMultiChainStatus] is 0. *)
Lemma healthyChains_zero (mc : MultiChainChecker) (heap : gmap loc RPCEndpoint) (now : Z) :
  Z.of_nat (size (chains mc)) <= maxInt64 ->
  HealthyChains (GetMultiChainStatus mc heap now) = 0
  <-> forall chainName, GetHealthyEndpoints mc heap chainName = [].
Proof.
  intros Hmax. rewrite healthyChains_count by exact Hmax.
  pose proof (healthy_chain_exists mc heap) as Hex. split.
  - intros H0 name. destruct (GetHealthyEndpoints mc heap name) eqn:Hh; [done |].
    assert (0 < 0); [| lia]. rewrite <- H0 at 2. apply Hex. exists name. by rewrite Hh.
  - intros Hall.
    destruct (decide (0 < Z.of_nat (size (filter (fun entry : string * ChainConfig =>
                GetHealthyEndpoints mc heap entry.1 <> []) (chains mc))))) as [Hpos | Hnp];
      [| lia].
    apply Hex in Hpos as [name Hh]. by specialize (Hall name).
Qed.

(** X9. GetMultiChainStatus holds, for exactly the registered chains, the
    status GetChainStatus gives; HealthyChains is the number of registered
    chains with at least one healthy endpoint and lies between 0 and
    TotalChains; Proxy is healthy if some chain has a healthy endpoint and
    unhealthy otherwise. The count is exact as long as the number of chains
    fits a Go int. *)
Theorem multi_chain_status_counts_chains_with_a_healthy_endpoint
    (mc : MultiChainChecker) (heap : gmap loc RPCEndpoint) (now : Z) :
  Z.of_nat (size (chains mc)) <= maxInt64 ->
  let status := GetMultiChainStatus mc heap now in
  (forall chainName, Chains status !! chainName = GetChainStatus mc heap chainName)
  /\ HealthyChains status
     = Z.of_nat (size (filter (fun entry => GetHealthyEndpoints mc heap entry.1 <> [])
                              (chains mc)))
  /\ 0 <= HealthyChains status <= TotalChains status
  /\ (Proxy status = "healthy" <-> exists chainName, GetHealthyEndpoints mc heap chainName <> [])
  /\ (Proxy status = "unhealthy" <-> forall chainName, GetHealthyEndpoints mc heap chainName = []).
Proof.
  intros Hmax status.
  pose proof (healthyChains_count mc heap now Hmax) as Hn.
  pose proof (healthyChains_zero mc heap now Hmax) as Hzero.
  pose proof (healthy_chain_exists mc heap) as Hex. rewrite <- Hn in Hex.
  subst status. rewrite GetMultiChainStatus_fold in *. cbn zeta in *.
  cbn [Proxy TotalChains HealthyChains Chains] in *.
  set (r := foldl (multiStep heap) (∅, 0) (map_to_list (chains mc))) in *.
  split_and!.
  - intros name. unfold r. rewrite multiStep_chains by apply NoDup_fst_map_to_list.
    rewrite list_to_map_to_list. unfold GetChainStatus.
    destruct (chains mc !! name); [done | apply lookup_empty].
  - exact Hn.
  - lia.
  - rewrite Hn. pose proof (map_filter_subseteq (fun entry : string * ChainConfig =>
        GetHealthyEndpoints mc heap entry.1 <> []) (chains mc)) as Hsub.
    apply map_subseteq_size in Hsub. lia.
  - rewrite <- Hex. destruct (0 <? r.2) eqn:E; [apply Z.ltb_lt in E | apply Z.ltb_ge in E];
      split; try done; lia.
  - rewrite <- Hzero. destruct (0 <? r.2) eqn:E; [apply Z.ltb_lt in E | apply Z.ltb_ge in E].
    + split; [done | lia].
    + split; [intros _ |done]. lia.
Qed.

Lemma multi_chain_status_counts_chains_with_a_healthy_endpoint_witness :
  Z.of_nat (size (chains registry)) <= maxInt64
  /\ HealthyChains (GetMultiChainStatus registry twoEndpoints 0) = 1.
Proof.
  assert (H : Z.of_nat (size (chains registry)) <= maxInt64) by (vm_compute; discriminate).
  split; [exact H |].
  exact (eq_trans
           (proj1 (proj2 (multi_chain_status_counts_chains_with_a_healthy_endpoint
                            registry twoEndpoints 0 H)))
           eq_refl).
Defined.

(** * The registry of probers *)

Lemma registry_step (mc : MultiChainChecker) (c : Call) :
  ((isRunning mc = false -> probers mc = [])
   /\ (isRunning mc = true ->
       forall chainName chainConfig,
         chains mc !! chainName = Some chainConfig -> (chainName, chainConfig) ∈ probers mc)) ->
  (isRunning (call mc c) = false -> probers (call mc c) = [])
  /\ (isRunning (call mc c) = true ->
      forall chainName chainConfig,
        chains (call mc c) !! chainName = Some chainConfig ->
        (chainName, chainConfig) ∈ probers (call mc c)).
Proof.
  intros [Hoff Hon]. destruct c as [| | name cfg | name]; simpl.
  - unfold Start. destruct (isRunning mc) eqn:Hr.
    + rewrite Hr. by split.
    + simpl. split; [done |].
      intros _ n c Hc. rewrite Hoff by done. simpl. by apply elem_of_map_to_list.
  - unfold Stop. destruct (isRunning mc) eqn:Hr; simpl.
    + by split.
    + rewrite Hr. by split.
  - destruct (isRunning mc) eqn:Hr; simpl.
    + split; [done |]. intros _ n c Hc. apply elem_of_app.
      apply lookup_insert_Some in Hc as [[<- <-] | [Hne Hc]].
      * right. by apply list_elem_of_singleton.
      * left. by apply Hon.
    + split; [by auto | done].
  - split; [exact Hoff |]. intros Hr n c Hc.
    apply lookup_delete_Some in Hc as [_ Hc]. by apply Hon.
Qed.

(** X10. After any sequence of Start, Stop, AddChain and RemoveChain calls on
    a new multi-chain checker: a checker that is not running has no prober
    goroutine; a running checker that was never stopped has, for every
    registered chain, a goroutine started with the chain's current
    configuration; the health configuration is the one given at construction. *)
Theorem running_checker_probes_every_registered_chain
    (chains0 : gmap string ChainConfig) (healthConfig0 : HealthCheckConfig)
    (calls : list Call) :
  let mc := foldl call (NewMultiChainChecker chains0 healthConfig0) calls in
  (isRunning mc = false -> probers mc = [])
  /\ (isRunning mc = true -> cancelled mc = false ->
      forall chainName chainConfig,
        chains mc !! chainName = Some chainConfig -> (chainName, chainConfig) ∈ probers mc)
  /\ healthConfig mc = healthConfig0.
Proof.
  cut (let mc := foldl call (NewMultiChainChecker chains0 healthConfig0) calls in
       (isRunning mc = false -> probers mc = [])
       /\ (isRunning mc = true ->
           forall chainName chainConfig,
             chains mc !! chainName = Some chainConfig -> (chainName, chainConfig) ∈ probers mc)
       /\ healthConfig mc = healthConfig0).
  { cbn zeta. intros (Hoff & Hon & Hcfg). split_and!; auto. }
  induction calls as [| c calls IH] using rev_ind; [by repeat split |].
  rewrite foldl_app. cbn [foldl]. cbn zeta in IH. destruct IH as (Hoff & Hon & Hcfg).
  set (mc := foldl call (NewMultiChainChecker chains0 healthConfig0) calls) in *.
  destruct (registry_step mc c (conj Hoff Hon)) as [Hoff' Hon'].
  split_and!; [exact Hoff' | exact Hon' |].
  rewrite <- Hcfg. destruct c; simpl; unfold Start, Stop;
    try destruct (isRunning mc); reflexivity.
Qed.

(** * The single-chain checker *)

Lemma checkEndpoint_failed config now rt probe e :
  legacyBlock probe = None ->
  exists rt', checkEndpoint config now rt probe e = markUnhealthy config now rt' "" e.
Proof.
  intros H. destruct probe as [| | | status [[j [[] |] [err |] id] |]]; simpl in *;
    try (by eexists); destruct (status =? http.StatusOK) eqn:E; simpl; try (by eexists).
  all: apply Z.eqb_eq in E; subst status; discriminate.
Qed.

Lemma checkEndpoint_succeeded config now rt probe blockNumber e :
  legacyBlock probe = Some blockNumber ->
  checkEndpoint config now rt probe e = markHealthy now rt blockNumber e.
Proof.
  intros H. destruct probe as [| | | status [[j [[] |] [err |] id] |]]; simpl in H;
    try discriminate.
  all: destruct status as [| p | p]; try discriminate;
    do 8 (destruct p as [p | p |]; try discriminate).
  by injection H as ->.
Qed.

Lemma failed_rounds config (rounds : list checker.Round) :
  forall e,
    Forall (fun r => legacyBlock (checker.roundProbe r) = None) rounds ->
    0 <= FailCount e ->
    FailCount e + 2 * Z.of_nat (length rounds) <= maxInt64 ->
    let n := Z.of_nat (length rounds) in
    let e' := foldl (probeRound config) e rounds in
    FailCount e + n <= FailCount e' <= FailCount e + 2 * n
    /\ (FailCount e + n < Retries config ->
        Healthy e' = Healthy e /\ FailCount e' = FailCount e + n)
    /\ (Retries config <= FailCount e + n -> 0 < n -> Healthy e' = false).
Proof.
  induction rounds as [| r rounds IH]; intros e Hall H0 Hmax; cbn zeta.
  - cbn [foldl length Z.of_nat]. split_and!; [lia | lia | intros _; split; [done | lia] | lia].
  - apply Forall_cons in Hall as [Hr Hall]. cbn [foldl].
    destruct (checkEndpoint_failed config (checker.roundNow r) (checker.roundResponseTime r)
                (checker.roundProbe r) e Hr) as [rt' Hstep].
    change (checkEndpoint config (checker.roundNow r) (checker.roundResponseTime r)
              (checker.roundProbe r) e) with (probeRound config e r) in Hstep.
    rewrite Hstep.
    destruct (markUnhealthy_effect config (checker.roundNow r) rt' "" e) as [Hh Hf].
    cbn zeta in Hh, Hf. cbn [length] in *.
    rewrite wrap64_small in Hh, Hf by (unfold maxInt64 in *; lia).
    set (e1 := markUnhealthy config (checker.roundNow r) rt' "" e) in *.
    assert (Hf1 : FailCount e + 1 <= FailCount e1 <= FailCount e + 2).
    { rewrite Hf. destruct (Retries config <=? FailCount e + 1); [| lia].
      rewrite wrap64_small by (unfold maxInt64 in *; lia). lia. }
    destruct (IH e1 Hall ltac:(lia) ltac:(lia)) as (Hb & Hlow & Hhigh). cbn zeta in *.
    split_and!.
    + lia.
    + lia.
    + intros Hlt. destruct (Retries config <=? FailCount e + 1) eqn:E;
        [apply Z.leb_le in E; lia |]. apply Z.leb_gt in E.
      destruct Hlow as [Hh' Hf']; [lia |]. split; [congruence | lia].
    + intros Hge _. destruct rounds as [| r' rounds'].
      * simpl. rewrite Hh. simpl in Hge.
        destruct (Retries config <=? FailCount e + 1) eqn:E; [done |].
        apply Z.leb_gt in E. lia.
      * apply Hhigh; [| simpl; lia]. lia.
Qed.

(** X11. In the single-chain checker an endpoint whose failure count is 0
    keeps its health flag through fewer than Retries failed probes in a row,
    its count being the number of failures; it is unhealthy once Retries
    failures (at least one) have been seen; one successful probe after that
    makes it healthy with count 0. *)
Theorem legacy_checker_marks_down_at_retries_failures
    (config : HealthCheckConfig) (e : RPCEndpoint) (rounds : list checker.Round) :
  FailCount e = 0 ->
  Forall (fun r => legacyBlock (checker.roundProbe r) = None) rounds ->
  2 * Z.of_nat (length rounds) <= maxInt64 ->
  let n := Z.of_nat (length rounds) in
  let e' := foldl (probeRound config) e rounds in
  (n < Retries config -> Healthy e' = Healthy e /\ FailCount e' = n)
  /\ (Retries config <= n -> 0 < n -> Healthy e' = false)
  /\ (forall r, legacyBlock (checker.roundProbe r) <> None ->
        Healthy (probeRound config e' r) = true /\ FailCount (probeRound config e' r) = 0).
Proof.
  intros Hf Hall Hmax n e'.
  destruct (failed_rounds config rounds e Hall ltac:(lia) ltac:(lia)) as (_ & Hlow & Hhigh).
  cbn zeta in *. rewrite Hf in *. split_and!.
  - intros Hn. apply Hlow. lia.
  - intros Hn Hpos. apply Hhigh; lia.
  - intros r Hr. unfold probeRound.
    destruct (legacyBlock (checker.roundProbe r)) as [blockNumber |] eqn:Hb; [| done].
    rewrite (checkEndpoint_succeeded config (checker.roundNow r) (checker.roundResponseTime r)
               (checker.roundProbe r) blockNumber _ Hb).
    by split.
Qed.

Lemma legacy_checker_marks_down_at_retries_failures_witness :
  Healthy (foldl (probeRound threeRetries) endpointA threeRefused) = false.
Proof.
  apply (legacy_checker_marks_down_at_retries_failures threeRetries endpointA threeRefused).
  - reflexivity.
  - repeat constructor.
  - vm_compute. discriminate.
  - vm_compute. discriminate.
  - reflexivity.
Defined.

(** * Starting and stopping the single-chain checker *)

Lemma sublist_tail {A} (x : A) (l k : list A) : x :: l `sublist_of` k -> l `sublist_of` k.
Proof. intros H. etrans; [| exact H]. by apply sublist_cons. Qed.

Lemma calls_None (cs : list checker.Call) :
  foldl (fun hc c => hc ≫= fun hc => checker.call hc c) None cs = None.
Proof. induction cs; [done | by simpl]. Qed.

Lemma calls_untilPanic (cs : list checker.Call) :
  forall hc, checker.calls hc cs = None <-> untilPanic hc `sublist_of` cs.
Proof.
  unfold checker.calls.
  induction cs as [| c cs IH]; intros hc.
  - simpl. split; [done |]. intros H. apply sublist_nil_r in H.
    unfold untilPanic in H. by destruct (checker.running hc), (checker.stopClosed hc).
  - cbn [foldl mbind option_bind].
    destruct hc as [eps cfg rn closed].
    destruct c, rn, closed; cbn [checker.call checker.Start checker.Stop checker.running
      checker.stopClosed negb option_bind mbind]; rewrite ?calls_None, ?IH;
      unfold untilPanic; cbn [checker.running checker.stopClosed].
    all: split; intros H.
    all: try (by apply sublist_cons).
    all: try (by apply sublist_skip).
    all: try (by apply sublist_nil_l).
    all: try done.
    all: try (apply sublist_cons_r in H as [H | (l' & E & H)]; [done | by injection E as <-]).
    all: try (apply sublist_cons_r in H as [H | (l' & E & H)]; [done | discriminate]).
    all: try (apply sublist_cons_r in H as [H | (l' & E & H)];
              [by apply sublist_tail in H | by injection E as <-]).
  all: try (apply sublist_skip, sublist_nil_l).
Qed.

(** X12. A sequence of Start and Stop calls on a new single-chain checker
    panics (close of the closed stop channel) exactly when it contains Start,
    Stop, Start, Stop in this order: the checker cannot be stopped a second
    time after a restart. *)
Theorem legacy_checker_panics_on_second_stop
    (endpoints : list loc) (config : HealthCheckConfig) (cs : list checker.Call) :
  checker.calls (checker.NewChecker endpoints config) cs = None
  <-> [checker.CallStart; checker.CallStop; checker.CallStart; checker.CallStop]
        `sublist_of` cs.
Proof. apply calls_untilPanic. Qed.

(** * A pass of the single-chain checker *)

Lemma foldl_alter_NoDup (f : loc -> RPCEndpoint -> RPCEndpoint) (l : list loc) (q : loc) :
  forall heap : gmap loc RPCEndpoint,
    NoDup l ->
    foldl (fun heap p => alter (f p) p heap) heap l !! q
    = if decide (q ∈ l) then f q <$> heap !! q else heap !! q.
Proof.
  induction l as [| p l IH]; intros heap Hnd.
  - cbn [foldl]. destruct (decide (q ∈ [])) as [H | _]; [by apply elem_of_nil in H | done].
  - apply NoDup_cons in Hnd as [Hp Hnd]. cbn [foldl]. rewrite IH by exact Hnd.
    destruct (decide (q = p)) as [-> | Hne].
    + destruct (decide (p ∈ l)) as [? | _]; [done |].
      destruct (decide (p ∈ p :: l)) as [_ | Hn]; [| by destruct Hn; left].
      apply lookup_alter_eq.
    + rewrite lookup_alter_ne by done.
      destruct (decide (q ∈ l)) as [Hin | Hin], (decide (q ∈ p :: l)) as [Hin' | Hin'];
        try done.
      * destruct Hin'. by right.
      * apply elem_of_cons in Hin' as [? | ?]; done.
Qed.

Lemma filter_ext_elem_of {A} (P Q : A -> Prop) `{!forall x, Decision (P x)}
    `{!forall x, Decision (Q x)} (l : list A) :
  (forall x, x ∈ l -> P x <-> Q x) -> filter P l = filter Q l.
Proof.
  induction l as [| x l IH]; intros Hext; [done |].
  rewrite !filter_cons, IH by (intros y Hy; apply Hext; by right).
  destruct (decide (P x)) as [HP | HP], (decide (Q x)) as [HQ | HQ]; try done.
  - destruct HQ. by apply (Hext x); [left |].
  - destruct HP. by apply (Hext x); [left |].
Qed.

(** X13. If the single-chain checker's endpoint list holds no pointer twice, a
    pass leaves every listed endpoint, enabled or not, as one run of
    checkEndpoint leaves it and touches no other endpoint; GetHealthyEndpoints
    after the pass returns, in list order, the endpoints whose probe left them
    healthy. *)
Theorem legacy_pass_probes_every_endpoint
    (hc : checker.Checker) (world : loc -> checker.Round) (heap : gmap loc RPCEndpoint) :
  NoDup (checker.endpoints hc) ->
  let heap' := checker.performHealthCheck hc world heap in
  (forall q,
      heap' !! q = if decide (q ∈ checker.endpoints hc)
                   then (fun e => probeRound (checker.config hc) e (world q)) <$> heap !! q
                   else heap !! q)
  /\ ((forall q, q ∈ checker.endpoints hc -> is_Some (heap !! q)) ->
      checker.GetHealthyEndpoints hc heap'
      = filter (fun q => Healthy (probeRound (checker.config hc) (heap !!! q) (world q)) = true)
               (checker.endpoints hc)).
Proof.
  intros Hnd heap'.
  assert (Hlook : forall q,
      heap' !! q = if decide (q ∈ checker.endpoints hc)
                   then (fun e => probeRound (checker.config hc) e (world q)) <$> heap !! q
                   else heap !! q).
  { intros q. unfold heap', checker.performHealthCheck.
    apply (foldl_alter_NoDup
             (fun p e => probeRound (checker.config hc) e (world p))
             (checker.endpoints hc) q heap Hnd). }
  split; [exact Hlook |].
  intros Halloc. unfold checker.GetHealthyEndpoints.
  rewrite healthy_foldl. cbn [app].
  apply filter_ext_elem_of. intros q Hq.
  destruct (Halloc q Hq) as [e He].
  rewrite !lookup_total_alt, Hlook, He, decide_True by exact Hq. done.
Qed.

Lemma legacy_pass_probes_every_endpoint_witness :
  checker.performHealthCheck (checker.NewChecker [1%nat] threeRetries)
    (fun _ => checker.mkRound 1000 7 (LegacyResp 200
       (Some (mkJSONRPCResponse "2.0" (Some (JString "0x10")) None (Some (JNumber "1"))))))
    offOnly !! 1%nat
  = Some (markHealthy 1000 7 "0x10" endpointOff).
Proof.
  refine (eq_trans (proj1 (legacy_pass_probes_every_endpoint
            (checker.NewChecker [1%nat] threeRetries) _ offOnly _) 1%nat) _).
  - apply NoDup_singleton.
  - reflexivity.
Defined.

(** * The writer *)

Lemma headerAdds_exact (values : list string) (key : string) (k : M unit) :
  forall σ,
    foldr (fun value k' => run headerAdd key value then k') k values σ =
    k (answered {| wHeader := addValues key values (wHeader (w σ));
                   wStatus := wStatus (w σ); wBody := wBody (w σ) |} σ).
Proof.
  induction values as [| v values IH]; intros σ; simpl.
  - by destruct σ as [h c [wh ws wb] wi].
  - unfold bind at 1. simpl. rewrite IH. reflexivity.
Qed.

Lemma copyHeaders_exact (hs : list (string * list string)) :
  forall σ,
    foldr (fun kv k => foldr (fun value k' => run headerAdd kv.1 value then k') k kv.2)
          (ret tt) hs σ =
    Done tt (answered {| wHeader := foldl (fun hdr kv => addValues kv.1 kv.2 hdr)
                                          (wHeader (w σ)) hs;
                         wStatus := wStatus (w σ); wBody := wBody (w σ) |} σ).
Proof.
  induction hs as [| kv hs IH]; intros σ; simpl.
  - by destruct σ as [h c [wh ws wb] wi].
  - rewrite headerAdds_exact, IH. reflexivity.
Qed.

Lemma copyResponse_exact resp σ :
  copyResponse resp σ = Done tt (answered (copied resp (w σ)) σ).
Proof.
  unfold copyResponse. unfold bind at 1. rewrite copyHeaders_exact.
  unfold copied, answered. simpl. destruct (wStatus (w σ)); reflexivity.
Qed.

Lemma httpError_run error code σ :
  httpError error code σ = Done tt (answered (plainWriter error code (w σ)) σ).
Proof. destruct σ as [h c [wh [ws |] wb] wi]; reflexivity. Qed.

Lemma addValues_lookup (key k : string) (values : list string) :
  forall hdr : http.Header,
    addValues key values hdr !! k
    = if decide (k = key) then
        match values with
        | [] => hdr !! k
        | _ => Some (default [] (hdr !! k) ++ values)
        end
      else hdr !! k.
Proof.
  unfold addValues, http.Header.
  induction values as [| v values IH]; intros hdr; simpl.
  - by destruct (decide (k = key)).
  - rewrite IH. destruct (decide (k = key)) as [-> | Hne].
    + destruct values; simpl; rewrite lookup_insert_eq; simpl; [done |].
      by rewrite <- app_assoc.
    + by rewrite lookup_insert_ne.
Qed.

Lemma copied_lookup (k : string) (hs : list (string * list string)) :
  forall hdr : http.Header,
    NoDup hs.*1 ->
    foldl (fun hdr kv => addValues kv.1 kv.2 hdr) hdr hs !! k
    = match (list_to_map hs : http.Header) !! k with
      | Some (v :: values) => Some (default [] (hdr !! k) ++ v :: values)
      | _ => hdr !! k
      end.
Proof.
  unfold http.Header.
  induction hs as [| [key values] hs IH]; intros hdr Hnd; [done |].
  apply NoDup_cons in Hnd as [Hkey Hnd]. cbn [foldl]. rewrite IH by exact Hnd.
  cbn [list_to_map foldr]. simpl. rewrite !addValues_lookup.
  destruct (decide (k = key)) as [-> | Hne].
  - rewrite (not_elem_of_list_to_map_1 _ _ Hkey), lookup_insert_eq.
    by destruct values.
  - by rewrite lookup_insert_ne.
Qed.

(** What [copyResponse] leaves under a header key: the values the writer
    held, then those of the response. *)
Lemma copied_header resp rw (k : string) :
  wHeader (copied resp rw) !! k
  = match http.RespHeader resp !! k with
    | Some (v :: values) => Some (default [] (wHeader rw !! k) ++ v :: values)
    | _ => wHeader rw !! k
    end.
Proof.
  unfold copied. simpl. rewrite copied_lookup by apply NoDup_fst_map_to_list.
  unfold http.Header. by rewrite list_to_map_to_list.
Qed.

(** * The handler as a whole *)

Lemma tryEndpoints_outcome (t : Transport) (body : string) (headers : http.Header) :
  forall (l : list loc) (i : nat) (lastErr : option string) (σ : World),
    l <> [] \/ lastErr <> None ->
    exists called rw',
      tryEndpoints t body headers i l lastErr σ
      = Done tt (answered rw' (sent (requests (heap σ) body headers called) σ))
      /\ called `sublist_of` l
      /\ replyOf t (w σ) rw'.
Proof.
  induction l as [| p l IH]; intros i lastErr σ Hne.
  - destruct Hne as [? | Hne]; [done |]. destruct lastErr as [err |]; [| done].
    simpl. rewrite writeErrorResponse_run. exists [], (errorWriter (-32000)
      "All RPC endpoints failed" (Some (JString err)) (w σ)).
    split_and!; [by rewrite sent_nil | done | right; left; eauto].
  - cbn [tryEndpoints]. unfold bind at 1. rewrite forwardRequest_attempt.
    unfold attempt.
    destruct (proxy.newRequestErr t (URL (heap σ !!! p))) as [err |]; cbn [fst snd].
    + rewrite sent_nil.
      destruct (IH (S i) (Some ("failed to create request: " +:+ err)) σ) as
        (called & rw' & Hrun & Hsub & Hrep); [by right |].
      exists called, rw'. split_and!; [exact Hrun | by apply sublist_cons | exact Hrep].
    + destruct (clientDo t i (upstreamRequest (URL (heap σ !!! p)) body headers))
        as [err | resp] eqn:Hdo.
      * destruct (IH (S i) (Some ("request failed: " +:+ err))
                    (sent [upstreamRequest (URL (heap σ !!! p)) body headers] σ)) as
          (called & rw' & Hrun & Hsub & Hrep); [by right |].
        exists (p :: called), rw'. split_and!; [| by apply sublist_skip | exact Hrep].
        rewrite Hrun. unfold answered, sent, requests. simpl. by rewrite <- app_assoc.
      * rewrite copyResponse_exact. exists [p], (copied resp (w σ)).
        split_and!; [reflexivity | apply sublist_skip, sublist_nil_l |].
        right; right. eauto.
Qed.

Lemma forward_outcome t chainName body headers σ :
  exists sorted called rw',
    forward t chainName body headers σ
    = Done tt (answered rw' (sent (requests (heap σ) body headers called) σ))
    /\ sorted ≡ₚ GetHealthyEndpoints (checker σ) (heap σ) chainName
    /\ StronglySorted (desc (readWeight σ)) sorted
    /\ called `sublist_of` sorted
    /\ replyOf t (w σ) rw'.
Proof.
  destruct (bubbleSort_spec (readWeight σ) (GetHealthyEndpoints (checker σ) (heap σ) chainName))
    as (sorted & Hsort & Hperm & Hdesc & _).
  unfold forward, bind, getHealthyEndpoints.
  destruct (length (GetHealthyEndpoints (checker σ) (heap σ) chainName) =? 0)%nat eqn:E.
  - rewrite writeErrorResponse_run. exists sorted, [], (errorWriter (-32000)
      ("No healthy RPC endpoints available for chain: " +:+ chainName) None (w σ)).
    split_and!; [by rewrite sent_nil | done | done | apply sublist_nil_l | right; left; eauto].
  - unfold getSortedEndpointsByWeight. rewrite E, Hsort.
    apply Nat.eqb_neq in E.
    destruct (tryEndpoints_outcome t body headers sorted 0 None σ) as
      (called & rw' & Hrun & Hsub & Hrep).
    { left. intros ->. apply Permutation_length in Hperm. simpl in Hperm. lia. }
    exists sorted, called, rw'. by split_and!.
Qed.

Lemma handleRPCForChain_outcome t r chainName σ :
  exists sorted called rw',
    handleRPCForChain t r chainName σ
    = Done tt (answered rw' (sent (requests (heap σ) (ReadAll r).1 (ReqHeader r) called) σ))
    /\ sorted ≡ₚ GetHealthyEndpoints (checker σ) (heap σ) chainName
    /\ StronglySorted (desc (readWeight σ)) sorted
    /\ called `sublist_of` sorted
    /\ replyOf t (w σ) rw'.
Proof.
  destruct (forward_outcome t chainName (ReadAll r).1 (ReqHeader r) σ) as
    (sorted & called & rw' & Hrun & Hperm & Hdesc & Hsub & Hrep).
  unfold handleRPCForChain.
  destruct (negb (Method r =? "POST")%string && negb (Method r =? "GET")%string).
  - rewrite httpError_run. exists sorted, [], (plainWriter "Method not allowed"
      http.StatusMethodNotAllowed (w σ)).
    split_and!; [by rewrite sent_nil | done | done | apply sublist_nil_l | by left].
  - destruct ((Method r =? "POST")%string && (0 <? ContentLength r)
              && (ContentLength r <? 1000)).
    + exists sorted, called, rw'. by split_and!.
    + destruct (ReadAll r) as [b [err |]] eqn:Hread; simpl in *.
      * rewrite writeErrorResponse_run. exists sorted, [], (errorWriter (-32700)
          "Parse error" None (w σ)).
        split_and!; [by rewrite sent_nil | done | done | apply sublist_nil_l | right; left; eauto].
      * exists sorted, called, rw'. by split_and!.
Qed.


Lemma GetHealthyEndpoints_Healthy mc (heap : gmap loc RPCEndpoint) chainName p :
  p ∈ GetHealthyEndpoints mc heap chainName -> Healthy (heap !!! p) = true.
Proof.
  unfold GetHealthyEndpoints. destruct (chains mc !! chainName); [| by intros ?%elem_of_nil].
  rewrite healthy_foldl. simpl. by intros [? _]%list_elem_of_filter.
Qed.

(** X15. The upstream calls one request causes go, in this order, to a
    subsequence of the chain's healthy endpoints sorted by descending weight:
    every call is the request forwardRequest builds from the URL of an
    endpoint that GetHealthyEndpoints returned, the body read and the caller's
    headers, and there are no more calls than healthy endpoints. *)
Theorem handleRPCForChain_calls_healthy_endpoints_by_weight t r chainName h mc hdr :
  exists sorted called,
    sorted ≡ₚ GetHealthyEndpoints mc h chainName
    /\ StronglySorted (fun a b => Weight (h !!! b) <= Weight (h !!! a)) sorted
    /\ called `sublist_of` sorted
    /\ wire (final (handleRPCForChain t r chainName (entry h mc hdr)))
       = requests h (ReadAll r).1 (ReqHeader r) called
    /\ (forall req,
          req ∈ wire (final (handleRPCForChain t r chainName (entry h mc hdr))) ->
          exists p, p ∈ GetHealthyEndpoints mc h chainName
                    /\ Healthy (h !!! p) = true
                    /\ req = upstreamRequest (URL (h !!! p)) (ReadAll r).1 (ReqHeader r))
    /\ (length (wire (final (handleRPCForChain t r chainName (entry h mc hdr))))
        <= length (GetHealthyEndpoints mc h chainName))%nat.
Proof.
  destruct (handleRPCForChain_outcome t r chainName (entry h mc hdr)) as
    (sorted & called & rw' & Hrun & Hperm & Hdesc & Hsub & _).
  rewrite Hrun. cbn [final wire answered sent entry heap checker app] in *.
  exists sorted, called. split_and!; try done.
  - intros req Hreq. unfold requests in Hreq.
    apply list_elem_of_fmap in Hreq as (p & -> & Hp).
    assert (Hin : p ∈ GetHealthyEndpoints mc h chainName).
    { rewrite <- Hperm. by eapply elem_of_sublist. }
    exists p. split_and!; [exact Hin | by eapply GetHealthyEndpoints_Healthy | done].
  - unfold requests. rewrite length_map, <- Hperm. by apply sublist_length.
Qed.

(** X16. When reading the request body fails, a POST with a declared length
    from 1 to 999 is still forwarded, with the bytes read before the failure,
    because the logging preview has consumed the body and dropped the error; a
    GET, or a POST of another declared length, is answered with the JSON-RPC
    error -32700 and no upstream call. *)
Theorem read_error_is_dropped_for_small_posts t r chainName σ b err :
  ReadAll r = (b, Some err) ->
  (Method r = "POST" -> 0 < ContentLength r < 1000 ->
   handleRPCForChain t r chainName σ = forward t chainName b (ReqHeader r) σ)
  /\ (Method r = "GET" \/ (Method r = "POST" /\ ~ 0 < ContentLength r < 1000) ->
      handleRPCForChain t r chainName σ
      = Done tt (answered (errorWriter (-32700) "Parse error" None (w σ)) σ)).
Proof.
  intros Hread. unfold handleRPCForChain. rewrite Hread. split.
  - intros -> [H0 H1]. apply Z.ltb_lt in H0, H1. by rewrite H0, H1.
  - intros [-> | [-> Hlen]]; simpl.
    + by rewrite writeErrorResponse_run.
    + destruct (0 <? ContentLength r) eqn:H0, (ContentLength r <? 1000) eqn:H1; simpl;
        try (by rewrite writeErrorResponse_run).
      apply Z.ltb_lt in H0, H1. lia.
Qed.

Lemma read_error_is_dropped_for_small_posts_witness :
  handleRPCForChain allTimeout truncatedPost "ethereum" (entry twoEndpoints registry ∅)
  = forward allTimeout "ethereum" "abc" ∅ (entry twoEndpoints registry ∅).
Proof.
  refine (proj1 (read_error_is_dropped_for_small_posts allTimeout truncatedPost "ethereum"
                   (entry twoEndpoints registry ∅) "abc" "unexpected EOF" _) _ _).
  - reflexivity.
  - reflexivity.
  - vm_compute. split; reflexivity.
Defined.

(** * The endpoint of greatest weight *)

Lemma filter_head (P : loc -> Prop) `{!forall x, Decision (P x)} (p : loc) (rest : list loc) :
  forall l,
    filter P l = p :: rest ->
    exists pre post, l = pre ++ p :: post /\ Forall (fun q => ~ P q) pre.
Proof.
  induction l as [| x l IH]; intros Hf; [done |].
  rewrite filter_cons in Hf. destruct (decide (P x)) as [HP | HP].
  - injection Hf as -> _. exists [], l. by split.
  - destruct (IH Hf) as (pre & post & -> & Hpre).
    exists (x :: pre), post. split; [done | by constructor].
Qed.

(** X17. selectHealthyEndpointForChain never panics and changes nothing; it
    returns nil exactly when the chain has no healthy endpoint, and otherwise
    the healthy endpoint of greatest weight that comes first in the chain's
    list: every healthy endpoint before it weighs strictly less, every one
    after it at most as much. *)
Theorem selectHealthyEndpointForChain_greatest_weight chainName σ :
  exists res,
    server.selectHealthyEndpointForChain chainName σ = Done res σ
    /\ match res with
       | None => GetHealthyEndpoints (checker σ) (heap σ) chainName = []
       | Some p =>
           exists pre post,
             GetHealthyEndpoints (checker σ) (heap σ) chainName = pre ++ p :: post
             /\ Healthy (heap σ !!! p) = true
             /\ Forall (fun q => Weight (heap σ !!! q) < Weight (heap σ !!! p)) pre
             /\ Forall (fun q => Weight (heap σ !!! q) <= Weight (heap σ !!! p)) post
       end.
Proof.
  unfold server.selectHealthyEndpointForChain, bind, getHealthyEndpoints.
  set (healthy := GetHealthyEndpoints (checker σ) (heap σ) chainName).
  destruct (length healthy =? 0)%nat eqn:E.
  - exists None. split; [reflexivity |]. apply Nat.eqb_eq in E. by destruct healthy.
  - unfold server.selectEndpointByWeight, bind, getSortedEndpointsByWeight. rewrite E.
    destruct (bubbleSort_spec (readWeight σ) healthy) as (sorted & -> & Hperm & Hdesc & Hstable).
    apply Nat.eqb_neq in E.
    destruct sorted as [| p rest];
      [apply Permutation_length in Hperm; simpl in Hperm; lia |].
    simpl. exists (Some p). split; [reflexivity |].
    apply StronglySorted_inv in Hdesc as [_ Hmax].
    assert (Hall : forall q, q ∈ healthy -> Weight (heap σ !!! q) <= Weight (heap σ !!! p)).
    { intros q Hq. rewrite <- Hperm in Hq. apply elem_of_cons in Hq as [-> | Hq]; [lia |].
      rewrite Forall_forall in Hmax. by apply Hmax. }
    specialize (Hstable (readWeight σ p)). rewrite filter_cons, decide_True in Hstable by done.
    symmetry in Hstable. apply filter_head in Hstable as (pre & post & Heq & Hpre).
    exists pre, post. split_and!.
    + exact Heq.
    + apply (GetHealthyEndpoints_Healthy (checker σ) (heap σ) chainName).
      fold healthy. rewrite Heq. apply elem_of_app. right. left.
    + apply Forall_forall. intros q Hq.
      assert (Hle := Hall q ltac:(rewrite Heq; apply elem_of_app; by left)).
      rewrite Forall_forall in Hpre. specialize (Hpre q Hq). unfold readWeight in Hpre. lia.
    + apply Forall_forall. intros q Hq. apply Hall. rewrite Heq.
      apply elem_of_app. right. by right.
Qed.

(** * The CORS headers *)

Lemma corsMiddleware_run next r h mc hdr :
  server.corsMiddleware next r (entry h mc hdr)
  = if String.eqb (Method r) "OPTIONS"
    then Done tt (answered {| wHeader := corsHeader hdr; wStatus := Some http.StatusOK;
                              wBody := [] |} (entry h mc hdr))
    else next r (entry h mc (corsHeader hdr)).
Proof.
  unfold server.corsMiddleware, bind, headerSet, onWriter. simpl.
  destruct (Method r =? "OPTIONS")%string; reflexivity.
Qed.

Lemma corsHeader_origin hdr :
  corsHeader hdr !! "Access-Control-Allow-Origin" = Some ["*"].
Proof.
  unfold corsHeader, http.Header.
  rewrite !lookup_insert_ne by done. apply lookup_insert_eq.
Qed.

(** X18. Behind corsMiddleware every answer of the RPC handler carries
    Access-Control-Allow-Origin with * as its first value; the only further
    values are those of the upstream response that was copied, which
    copyResponse appends instead of replacing. An OPTIONS request is answered
    with status 200, no body and no upstream call. *)
Theorem cors_origin_header_on_every_answer t chainName r h mc hdr :
  exists σ' extra,
    server.corsMiddleware (fun r => handleRPCForChain t r chainName) r (entry h mc hdr)
    = Done tt σ'
    /\ wHeader (w σ') !! "Access-Control-Allow-Origin" = Some ("*" :: extra)
    /\ (extra = []
        \/ exists i req resp,
             clientDo t i req = inr resp
             /\ http.RespHeader resp !! "Access-Control-Allow-Origin" = Some extra)
    /\ (Method r = "OPTIONS" ->
        wStatus (w σ') = Some http.StatusOK /\ wBody (w σ') = [] /\ wire σ' = []).
Proof.
  rewrite corsMiddleware_run.
  destruct (Method r =? "OPTIONS")%string eqn:E.
  - eexists _, []. split; [reflexivity |]. simpl.
    split_and!; [apply corsHeader_origin | by left | done].
  - apply String.eqb_neq in E.
    destruct (handleRPCForChain_outcome t r chainName (entry h mc (corsHeader hdr))) as
      (sorted & called & rw' & -> & _ & _ & _ & Hrep).
    cbn [w entry] in Hrep.
    destruct Hrep as [-> | [(code & message & data & ->) | (i & req & resp & Hdo & ->)]].
    + eexists _, []. split; [reflexivity |]. cbn [w answered plainWriter wHeader].
      split_and!; [| by left | done].
      unfold http.Header. rewrite !lookup_insert_ne by done.
      rewrite lookup_delete_ne by done. apply corsHeader_origin.
    + eexists _, []. split; [reflexivity |]. cbn [w answered errorWriter wHeader].
      split_and!; [| by left | done].
      unfold http.Header. rewrite !lookup_insert_ne by done. apply corsHeader_origin.
    + destruct (http.RespHeader resp !! "Access-Control-Allow-Origin") as [[| v values] |] eqn:Hv.
      * eexists _, []. split; [reflexivity |]. cbn [w answered].
        rewrite copied_header, Hv. cbn [wHeader].
        split_and!; [apply corsHeader_origin | by left | done].
      * eexists _, (v :: values). split; [reflexivity |]. cbn [w answered].
        rewrite copied_header, Hv. cbn [wHeader]. rewrite corsHeader_origin.
        split_and!; [done | right; eauto | done].
      * eexists _, []. split; [reflexivity |]. cbn [w answered].
        rewrite copied_header, Hv. cbn [wHeader].
        split_and!; [apply corsHeader_origin | by left | done].
Qed.

(** * The route to a chain *)

Lemma append_cons (c : ascii) (a b : string) : String c a +:+ b = String c (a +:+ b).
Proof. reflexivity. Qed.

Lemma append_nil_r (a : string) : a +:+ "" = a.
Proof. induction a as [| c a IH]; [done |]. by rewrite append_cons, IH. Qed.

Lemma HasPrefix_from (p : string) : forall s,
  strings.HasPrefix s p = true -> s = p +:+ strings.from (String.length p) s.
Proof.
  unfold strings.HasPrefix.
  induction p as [| a p IH]; intros s H; [reflexivity |].
  destruct s as [| b s]; [discriminate |]. simpl in H.
  destruct (ascii_dec a b) as [-> | _]; [| discriminate].
  change (String b s = String b (p +:+ strings.from (String.length p) s)).
  f_equal. by apply IH.
Qed.

Lemma HasPrefix_app (p s : string) : strings.HasPrefix (p +:+ s) p = true.
Proof.
  unfold strings.HasPrefix. induction p as [| a p IH]; simpl; [by destruct s |].
  by destruct (ascii_dec a a).
Qed.

Lemma from_app (p s : string) : strings.from (String.length p) (p +:+ s) = s.
Proof. induction p as [| a p IH]; simpl; [by destruct s | exact IH]. Qed.

Lemma alnumRun_inv (s : string) :
  s = (server.alnumRun s).1 +:+ (server.alnumRun s).2
  /\ alnumString (server.alnumRun s).1 = true.
Proof.
  induction s as [| c s [IH1 IH2]]; [done |]. cbn [server.alnumRun].
  destruct (server.isAlnum c) eqn:E; cbn [fst snd alnumString]; [| done].
  rewrite E, IH2, append_cons, <- IH1. done.
Qed.

Lemma alnumRun_app (name rest : string) :
  alnumString name = true ->
  rest = "" \/ rest = "/" ->
  server.alnumRun (name +:+ rest) = (name, rest).
Proof.
  intros Hname Hrest. induction name as [| c name IH].
  - by destruct Hrest as [-> | ->].
  - cbn [alnumString] in Hname. apply andb_prop in Hname as [Hc Hname].
    rewrite append_cons. cbn [server.alnumRun]. by rewrite Hc, IH.
Qed.

(** X19. handleMultiChainRPC serves chain name for exactly the paths /rpc/name
    and /rpc/name/ with name a non-empty string of letters and digits, and
    answers every other path with the JSON-RPC error -32600; the chain name it
    extracts is always alphanumeric, so a chain registered under a name with a
    hyphen, as soneium-testnet in the fallback configuration, cannot be
    reached on this route. *)
Theorem multi_chain_route_takes_alphanumeric_names t r path σ :
  (forall name,
      name <> "" -> alnumString name = true ->
      path = "/rpc/" +:+ name \/ path = "/rpc/" +:+ name +:+ "/" ->
      server.handleMultiChainRPC t r path σ = handleRPCForChain t r name σ)
  /\ ((forall name,
         name <> "" -> alnumString name = true ->
         path <> "/rpc/" +:+ name /\ path <> "/rpc/" +:+ name +:+ "/") ->
      server.handleMultiChainRPC t r path σ
      = Done tt (answered (errorWriter (-32600) "Invalid request path. Use /rpc/{chainName}"
                             None (w σ)) σ))
  /\ (forall name,
        server.FindStringSubmatch path !! 1%nat = Some name ->
        name <> "" /\ alnumString name = true).
Proof.
  unfold server.handleMultiChainRPC, server.FindStringSubmatch. split_and!.
  - intros name Hne Hal Hpath.
    assert (Hrun : exists rest, (rest = "" \/ rest = "/") /\ path = "/rpc/" +:+ (name +:+ rest)).
    { destruct Hpath as [-> | ->]; [exists "" | exists "/"]; split; auto.
      by rewrite append_nil_r. }
    destruct Hrun as (rest & Hrest & ->).
    rewrite HasPrefix_app.
    change 5%nat with (String.length "/rpc/"). rewrite from_app.
    rewrite (alnumRun_app name rest Hal Hrest). cbn [fst snd].
    apply String.eqb_neq in Hne. rewrite Hne.
    by destruct Hrest as [-> | ->].
  - intros Hno.
    destruct (strings.HasPrefix path "/rpc/") eqn:Hp;
      [| cbn [length Nat.eqb negb]; by rewrite writeErrorResponse_run].
    apply HasPrefix_from in Hp. change (String.length "/rpc/") with 5%nat in Hp.
    destruct (alnumRun_inv (strings.from 5 path)) as [Hsplit Hal].
    cbn zeta.
    destruct (String.eqb (server.alnumRun (strings.from 5 path)).1 "") eqn:E1;
      [cbn [length Nat.eqb negb andb]; by rewrite writeErrorResponse_run |].
    apply String.eqb_neq in E1.
    destruct (Hno _ E1 Hal) as [Hn1 Hn2].
    destruct (String.eqb (server.alnumRun (strings.from 5 path)).2 "") eqn:E2.
    { apply String.eqb_eq in E2. exfalso. apply Hn1. rewrite E2 in Hsplit.
      rewrite append_nil_r in Hsplit. by rewrite <- Hsplit. }
    destruct (String.eqb (server.alnumRun (strings.from 5 path)).2 "/") eqn:E3.
    { apply String.eqb_eq in E3. exfalso. apply Hn2. rewrite E3 in Hsplit.
      by rewrite <- Hsplit. }
    cbn [length Nat.eqb negb andb orb]. by rewrite writeErrorResponse_run.
  - intros name. destruct (strings.HasPrefix path "/rpc/"); [| done]. cbn zeta.
    destruct (alnumRun_inv (strings.from 5 path)) as [_ Hal].
    destruct (String.eqb (server.alnumRun (strings.from 5 path)).1 "") eqn:E1; [done |].
    apply String.eqb_neq in E1.
    destruct (String.eqb (server.alnumRun (strings.from 5 path)).2 "" ||
              String.eqb (server.alnumRun (strings.from 5 path)).2 "/"); [| done].
    cbn. intros [= <-]. by split.
Qed.

Lemma multi_chain_route_takes_alphanumeric_names_witness :
  server.handleMultiChainRPC allTimeout truncatedPost "/rpc/ethereum/"
    (entry twoEndpoints registry ∅)
  = handleRPCForChain allTimeout truncatedPost "ethereum" (entry twoEndpoints registry ∅).
Proof.
  apply (proj1 (multi_chain_route_takes_alphanumeric_names allTimeout truncatedPost
                  "/rpc/ethereum/" (entry twoEndpoints registry ∅)) "ethereum").
  - discriminate.
  - reflexivity.
  - right. reflexivity.
Defined.

(** The chain [soneium-testnet] of the fallback configuration cannot be
    reached under its name: the hyphen is outside the class. *)
Example soneium_testnet_unreachable :
  server.FindStringSubmatch "/rpc/soneium-testnet" = []
  /\ alnumString "soneium-testnet" = false.
Proof. split; reflexivity. Qed.

(** * The checker a configuration gives *)

Lemma registerChain_lookup c acc chain name :
  registerChain c acc chain !! name
  = if decide (ChainShortName chain = name) then
      (if IsEnabled chain then
         match config.ChainEndpoints c !! name with
         | Some (endpoint :: endpoints) =>
             Some {| Chain := chain; Endpoints := endpoint :: endpoints |}
         | _ => acc !! name
         end
       else acc !! name)
    else acc !! name.
Proof.
  unfold registerChain.
  destruct (decide (ChainShortName chain = name)) as [<- | Hne].
  - destruct (IsEnabled chain); simpl; [| done].
    destruct (config.ChainEndpoints c !! ChainShortName chain) as [[| e es] |]; simpl;
      [done | apply lookup_insert_eq | done].
  - destruct (IsEnabled chain); simpl; [| done].
    destruct (config.ChainEndpoints c !! ChainShortName chain) as [[| e es] |]; simpl;
      [done | by apply lookup_insert_ne | done].
Qed.

Lemma registerChains_lookup c name (chains : list types.Chain) :
  forall acc chainConfig,
    foldl (registerChain c) acc chains !! name = Some chainConfig ->
    acc !! name = Some chainConfig
    \/ (Chain chainConfig ∈ chains
        /\ ChainShortName (Chain chainConfig) = name
        /\ IsEnabled (Chain chainConfig) = true
        /\ Endpoints chainConfig <> []
        /\ config.ChainEndpoints c !! name = Some (Endpoints chainConfig)).
Proof.
  induction chains as [| chain chains IH]; intros acc chainConfig H; [by left |].
  cbn [foldl] in H. apply IH in H as [H | (Hin & Hname & Hen & Hne & Hep)].
  - rewrite registerChain_lookup in H.
    destruct (decide (ChainShortName chain = name)) as [Hn | Hn]; [| by left].
    destruct (IsEnabled chain) eqn:Hen; [| by left].
    destruct (config.ChainEndpoints c !! name) as [[| e es] |] eqn:Hep; try (by left).
    injection H as <-. right. simpl. split_and!; try done. left.
  - right. split_and!; try done. by right.
Qed.

Lemma registerChains_monitored c (chains : list types.Chain) :
  forall acc chain,
    (chain ∈ chains /\ monitored c chain) \/ is_Some (acc !! ChainShortName chain) ->
    is_Some (foldl (registerChain c) acc chains !! ChainShortName chain).
Proof.
  induction chains as [| chain' chains IH]; intros acc chain H.
  - destruct H as [[H _] | H]; [by apply elem_of_nil in H | done].
  - cbn [foldl]. apply IH.
    destruct H as [[Hin Hmon] | Hacc].
    + apply elem_of_cons in Hin as [-> | Hin]; [| by left]. right.
      destruct Hmon as (Hen & e & es & Hep).
      rewrite registerChain_lookup, decide_True, Hen, Hep by done. by eexists.
    + right. rewrite registerChain_lookup.
      destruct (decide (ChainShortName chain' = ChainShortName chain)) as [Hn | Hn]; [| done].
      destruct (IsEnabled chain'); [| done].
      destruct (config.ChainEndpoints c !! ChainShortName chain) as [[| e es] |];
        try done.
Qed.

Lemma chainsConfig_fold c :
  config.chainsConfig c = foldl (registerChain c) ∅ (config.Chains c).
Proof. reflexivity. Qed.

(** X20. The checker CreateMultiChainHealthChecker builds is not running and
    registers under each name only an enabled chain of the configuration with
    that name together with the non-empty endpoint list configured for the
    name; every enabled chain with endpoints is registered; a name whose
    chains are all disabled has no healthy endpoints to forward to, whatever
    the state of its endpoints. *)
Theorem configured_checker_monitors_enabled_chains_with_endpoints (c : config.Config) :
  let mc := config.CreateMultiChainHealthChecker c in
  (forall name chainConfig,
      chains mc !! name = Some chainConfig ->
      Chain chainConfig ∈ config.Chains c
      /\ ChainShortName (Chain chainConfig) = name
      /\ IsEnabled (Chain chainConfig) = true
      /\ Endpoints chainConfig <> []
      /\ config.ChainEndpoints c !! name = Some (Endpoints chainConfig))
  /\ (forall chain,
        chain ∈ config.Chains c -> monitored c chain ->
        is_Some (chains mc !! ChainShortName chain))
  /\ (forall heap name,
        (forall chain, chain ∈ config.Chains c -> ChainShortName chain = name ->
                       IsEnabled chain = false) ->
        GetHealthyEndpoints mc heap name = [])
  /\ isRunning mc = false /\ probers mc = [] /\ healthConfig mc = config.HealthCheck c.
Proof.
  cbn zeta. unfold config.CreateMultiChainHealthChecker, NewMultiChainChecker.
  cbn [chains isRunning probers healthConfig]. rewrite chainsConfig_fold.
  assert (Hfrom : forall name chainConfig,
      foldl (registerChain c) ∅ (config.Chains c) !! name = Some chainConfig ->
      Chain chainConfig ∈ config.Chains c
      /\ ChainShortName (Chain chainConfig) = name
      /\ IsEnabled (Chain chainConfig) = true
      /\ Endpoints chainConfig <> []
      /\ config.ChainEndpoints c !! name = Some (Endpoints chainConfig)).
  { intros name chainConfig H. by apply registerChains_lookup in H as [H | H]. }
  split_and!; try done.
  - intros chain Hin Hmon. apply registerChains_monitored. by left.
  - intros heap name Hoff. unfold GetHealthyEndpoints. cbn [chains].
    destruct (foldl (registerChain c) ∅ (config.Chains c) !! name) as [chainConfig |] eqn:E;
      [| done].
    apply Hfrom in E as (Hin & Hname & Hen & _). rewrite (Hoff _ Hin Hname) in Hen. done.
Qed.

(** * Validation *)

Lemma enabledChainsServed_None c (chains : list types.Chain) :
  config.enabledChainsServed c chains = None
  <-> forall chain, chain ∈ chains -> IsEnabled chain = true -> monitored c chain.
Proof.
  induction chains as [| chain chains IH]; simpl.
  - split; [by intros _ ? ?%elem_of_nil | done].
  - destruct (IsEnabled chain) eqn:Hen.
    + destruct (config.ChainEndpoints c !! ChainShortName chain) as [[| e es] |] eqn:Hep.
      * split; [done |]. intros H. destruct (H chain) as (_ & e & es & He); [by left | done |].
        rewrite Hep in He. discriminate.
      * rewrite IH. split.
        -- intros H chain' [-> | Hin]%elem_of_cons Hen'; [| by apply H].
           split; [done |]. eauto.
        -- intros H chain' Hin. apply H. by right.
      * split; [done |]. intros H. destruct (H chain) as (_ & e & es & He); [by left | done |].
        rewrite Hep in He. discriminate.
    + rewrite IH. split.
      * intros H chain' [-> | Hin]%elem_of_cons Hen'; [congruence | by apply H].
      * intros H chain' Hin. apply H. by right.
Qed.

(** X21. validateConfig returns nil exactly when there is a chain or a legacy
    endpoint, every enabled chain has at least one endpoint, the port is from
    1 to 65535, and interval, timeout, retries, proxy timeout and max
    connections are positive. For a configuration it accepts, the checker
    built from it registers every enabled chain with a non-empty endpoint
    list. *)
Theorem validated_configuration_serves_every_enabled_chain (c : config.Config) :
  (config.validateConfig c = None
   <-> (config.Chains c <> [] \/ config.RPCEndpoints c <> [])
       /\ (forall chain, chain ∈ config.Chains c -> IsEnabled chain = true -> monitored c chain)
       /\ 1 <= config.ServerPort c <= 65535
       /\ 0 < Interval (config.HealthCheck c)
       /\ 0 < Timeout (config.HealthCheck c)
       /\ 0 < Retries (config.HealthCheck c)
       /\ 0 < config.ProxyTimeout c
       /\ 0 < config.ProxyMaxConnections c)
  /\ (config.validateConfig c = None ->
      forall chain,
        chain ∈ config.Chains c -> IsEnabled chain = true ->
        exists chainConfig,
          chains (config.CreateMultiChainHealthChecker c) !! ChainShortName chain
          = Some chainConfig
          /\ Endpoints chainConfig <> []).
Proof.
  assert (Hiff : config.validateConfig c = None
   <-> (config.Chains c <> [] \/ config.RPCEndpoints c <> [])
       /\ (forall chain, chain ∈ config.Chains c -> IsEnabled chain = true -> monitored c chain)
       /\ 1 <= config.ServerPort c <= 65535
       /\ 0 < Interval (config.HealthCheck c)
       /\ 0 < Timeout (config.HealthCheck c)
       /\ 0 < Retries (config.HealthCheck c)
       /\ 0 < config.ProxyTimeout c
       /\ 0 < config.ProxyMaxConnections c).
  { unfold config.validateConfig. rewrite <- enabledChainsServed_None.
    destruct (config.Chains c) as [| chain chains] eqn:Hc,
             (config.RPCEndpoints c) as [| e es] eqn:He; cbn [length Nat.eqb andb].
    { split; [done |]. by intros ([? | ?] & _). }
    all: destruct (config.enabledChainsServed c _) as [err |];
      [split; [done | by intros (_ & ? & _)] |].
    all: destruct (config.ServerPort c <=? 0) eqn:E1; [apply Z.leb_le in E1 | apply Z.leb_gt in E1];
      cbn [orb]; [split; [done | intros (_ & _ & ? & _); lia] |].
    all: destruct (65535 <? config.ServerPort c) eqn:E2;
      [apply Z.ltb_lt in E2 | apply Z.ltb_ge in E2];
      [split; [done | intros (_ & _ & ? & _); lia] |].
    all: destruct (Interval (config.HealthCheck c) <=? 0) eqn:E3;
      [apply Z.leb_le in E3 | apply Z.leb_gt in E3];
      [split; [done | intros (_ & _ & _ & ? & _); lia] |].
    all: destruct (Timeout (config.HealthCheck c) <=? 0) eqn:E4;
      [apply Z.leb_le in E4 | apply Z.leb_gt in E4];
      [split; [done | intros (_ & _ & _ & _ & ? & _); lia] |].
    all: destruct (Retries (config.HealthCheck c) <=? 0) eqn:E5;
      [apply Z.leb_le in E5 | apply Z.leb_gt in E5];
      [split; [done | intros (_ & _ & _ & _ & _ & ? & _); lia] |].
    all: destruct (config.ProxyTimeout c <=? 0) eqn:E6;
      [apply Z.leb_le in E6 | apply Z.leb_gt in E6];
      [split; [done | intros (_ & _ & _ & _ & _ & _ & ? & _); lia] |].
    all: destruct (config.ProxyMaxConnections c <=? 0) eqn:E7;
      [apply Z.leb_le in E7 | apply Z.leb_gt in E7];
      [split; [done | intros (_ & _ & _ & _ & _ & _ & _ & ?); lia] |].
    all: split; [intros _ | done]; split_and!; try done; try lia; auto. }
  split; [exact Hiff |].
  intros Hval chain Hin Hen. apply Hiff in Hval as (_ & Hserved & _).
  destruct (registerChains_monitored c (config.Chains c) ∅ chain) as [chainConfig Hcc].
  { left. split; [done |]. by apply Hserved. }
  exists chainConfig. split; [exact Hcc |].
  apply registerChains_lookup in Hcc as [Hcc | (_ & _ & _ & Hne & _)]; [| done].
  by rewrite lookup_empty in Hcc.
Qed.

Lemma validated_configuration_serves_every_enabled_chain_witness :
  exists chainConfig,
    chains (config.CreateMultiChainHealthChecker oneChain) !! "ethereum" = Some chainConfig
    /\ Endpoints chainConfig <> [].
Proof.
  apply (proj2 (validated_configuration_serves_every_enabled_chain oneChain) eq_refl ethereum).
  - left.
  - reflexivity.
Defined.

(** * Looking a chain up by name *)

Lemma chainByName_NoDup (chains : list types.Chain) (chain : types.Chain) :
  NoDup (ChainShortName <$> chains) ->
  chain ∈ chains ->
  config.chainByName chains (ChainShortName chain) = Some chain.
Proof.
  induction chains as [| chain' chains IH]; intros Hnd Hin; [by apply elem_of_nil in Hin |].
  rewrite fmap_cons in Hnd. apply NoDup_cons in Hnd as [Hfresh Hnd]. simpl.
  apply elem_of_cons in Hin as [-> | Hin].
  - by rewrite String.eqb_refl.
  - destruct (String.eqb (ChainShortName chain') (ChainShortName chain)) eqn:E.
    + apply String.eqb_eq in E. destruct Hfresh. rewrite E.
      apply list_elem_of_fmap. by exists chain.
    + by apply IH.
Qed.

(** X22. If no two chains of the configuration share a name, the chain the
    checker holds under a registered name is the one GetChainByName returns
    for that name. With a repeated name the two differ: the checker keeps the
    last enabled chain, the lookup returns the first. *)
Theorem registered_chain_is_the_named_chain (c : config.Config) name chainConfig :
  NoDup (ChainShortName <$> config.Chains c) ->
  chains (config.CreateMultiChainHealthChecker c) !! name = Some chainConfig ->
  config.GetChainByName c name = Some (Chain chainConfig).
Proof.
  intros Hnd Hreg. unfold config.CreateMultiChainHealthChecker, NewMultiChainChecker in Hreg.
  cbn [chains] in Hreg. rewrite chainsConfig_fold in Hreg.
  apply registerChains_lookup in Hreg as [Hreg | (Hin & <- & _)];
    [by rewrite lookup_empty in Hreg |].
  by apply chainByName_NoDup.
Qed.

Lemma registered_chain_is_the_named_chain_witness :
  config.GetChainByName oneChain "ethereum" = Some ethereum.
Proof.
  apply (registered_chain_is_the_named_chain oneChain "ethereum"
           {| Chain := ethereum; Endpoints := [0%nat; 1%nat] |}).
  - vm_compute. repeat constructor; intros H.
    + apply elem_of_cons in H as [H | H]; [discriminate | by apply elem_of_nil in H].
    + by apply elem_of_nil in H.
  - reflexivity.
Defined.

(** Two chains of one name: the checker takes the later one, the lookup
    by name the earlier one. *)
Example same_name_twice :
  let first := mkChain 1 1 "ethereum" "ethereum" false true in
  let second := mkChain 9 9 "ethereum" "other" false true in
  let c := config.mkConfig 8080 threeRetries 30000 100 [first; second]
             {[ "ethereum" := [0%nat] ]} [] in
  Chain <$> chains (config.CreateMultiChainHealthChecker c) !! "ethereum" = Some second
  /\ config.GetChainByName c "ethereum" = Some first.
Proof. split; reflexivity. Qed.

(** * The health routes *)

Lemma Split_nonempty (s : string) (sep : ascii) : healthroutes.Split s sep <> [].
Proof.
  destruct s as [| c s]; simpl; [done |].
  destruct (Ascii.eqb c sep); [done |]. by destruct (healthroutes.Split s sep).
Qed.

Lemma Split_noSlash (s : string) :
  noSlash s = true -> healthroutes.Split s "/"%char = [s].
Proof.
  induction s as [| c s IH]; simpl; [done |].
  intros [Hc Hs]%andb_prop. apply negb_true_iff in Hc. by rewrite Hc, IH.
Qed.

Lemma Split_app (a b : string) :
  noSlash a = true ->
  healthroutes.Split (a +:+ String "/"%char b) "/"%char = a :: healthroutes.Split b "/"%char.
Proof.
  induction a as [| c a IH]; [done |]. simpl noSlash.
  intros [Hc Ha]%andb_prop. apply negb_true_iff in Hc.
  rewrite append_cons. cbn [healthroutes.Split]. by rewrite Hc, IH.
Qed.

Lemma Split_one (s b : string) :
  healthroutes.Split s "/"%char = [b] -> s = b /\ noSlash b = true.
Proof.
  revert b. induction s as [| c s IH]; intros b; simpl.
  - by intros [= <-].
  - destruct (Ascii.eqb c "/"%char) eqn:Hc.
    + intros [= _ H]. by apply Split_nonempty in H.
    + destruct (healthroutes.Split s "/"%char) as [| part parts] eqn:Hs;
        [by apply Split_nonempty in Hs |].
      intros [= <- ->]. destruct (IH part eq_refl) as [-> Hp].
      split; [done |]. simpl. by rewrite Hc, Hp.
Qed.

Lemma Split_two (s a b : string) :
  healthroutes.Split s "/"%char = [a; b] ->
  s = a +:+ String "/"%char b /\ noSlash a = true /\ noSlash b = true.
Proof.
  revert a. induction s as [| c s IH]; intros a; simpl; [done |].
  destruct (Ascii.eqb c "/"%char) eqn:Hc.
  - intros [= <- H]. apply Ascii.eqb_eq in Hc as ->.
    apply Split_one in H as [-> Hb]. by split_and!.
  - destruct (healthroutes.Split s "/"%char) as [| part parts] eqn:Hs;
      [by apply Split_nonempty in Hs |].
    intros [= <- ->]. destruct (IH part eq_refl) as (-> & Hp & Hb).
    split_and!; [by rewrite append_cons | simpl; by rewrite Hc, Hp | done].
Qed.

Lemma TrimRight_noSlash (s : string) :
  noSlash s = true -> healthroutes.TrimRight s "/" = s.
Proof.
  induction s as [| c s IH]; simpl; [done |].
  intros [Hc Hs]%andb_prop. apply negb_true_iff in Hc. rewrite Hc, IH by done. done.
Qed.

Lemma TrimRight_app (a name : string) :
  name <> "" -> noSlash name = true ->
  healthroutes.TrimRight (a +:+ name) "/" = a +:+ name.
Proof.
  intros Hne Hname. induction a as [| c a IH]; [by apply TrimRight_noSlash |].
  rewrite append_cons. cbn [healthroutes.TrimRight]. rewrite IH.
  destruct (String.eqb (a +:+ name) "") eqn:E; [| by rewrite andb_false_r].
  apply String.eqb_eq in E. destruct a, name; done.
Qed.

Lemma TrimRight_slash (s : string) :
  healthroutes.TrimRight (s +:+ "/") "/" = healthroutes.TrimRight s "/".
Proof.
  induction s as [| c s IH]; [done |].
  rewrite append_cons. cbn [healthroutes.TrimRight]. by rewrite IH.
Qed.

Lemma TrimRight_end (s a : string) : healthroutes.TrimRight s "/" <> a +:+ "/".
Proof.
  revert a. induction s as [| c s IH]; intros a; simpl; [by destruct a |].
  destruct (Ascii.eqb c "/"%char) eqn:Hc; simpl.
  - destruct (String.eqb (healthroutes.TrimRight s "/") "") eqn:E; [by destruct a |].
    apply String.eqb_neq in E. destruct a as [| d a]; [by intros [= _ ?] |].
    rewrite append_cons. intros [= _ H]. by apply IH in H.
  - destruct a as [| d a].
    + intros [= -> _]. done.
    + rewrite append_cons. intros [= _ H]. by apply IH in H.
Qed.

(** X23. The chain health route trims the slashes at both ends of the path and
    splits the rest at every slash: /health/name and /health/name/ give the
    two parts health and name for every non-empty name without a slash, a
    hyphen included; whenever the split gives two parts, the second is a
    non-empty name without a slash; a GET whose path does not split into
    health and a name is answered with 400. *)
Theorem chain_health_route_paths :
  (forall name,
      name <> "" -> noSlash name = true ->
      healthroutes.Split (healthroutes.Trim ("/health/" +:+ name) "/") "/"%char
      = ["health"; name]
      /\ healthroutes.Split (healthroutes.Trim ("/health/" +:+ name +:+ "/") "/") "/"%char
         = ["health"; name])
  /\ (forall path first name,
        healthroutes.Split (healthroutes.Trim path "/") "/"%char = [first; name] ->
        name <> "" /\ noSlash name = true
        /\ healthroutes.Trim path "/" = first +:+ "/" +:+ name)
  /\ (forall mc heap path rw,
        (forall name,
            healthroutes.Split (healthroutes.Trim path "/") "/"%char <> ["health"; name]) ->
        healthroutes.handleChainHealth mc heap "GET" path rw
        = healthroutes.Error "Invalid path format. Use /health/{chainName}"
            healthroutes.StatusBadRequest rw).
Proof.
  split_and!.
  - intros name Hne Hname.
    assert (Hsplit : healthroutes.Split ("health/" +:+ name) "/"%char = ["health"; name]).
    { change ("health/" +:+ name) with ("health" +:+ String "/"%char name).
      rewrite Split_app by reflexivity. by rewrite Split_noSlash. }
    unfold healthroutes.Trim. split.
    + change (healthroutes.TrimLeft ("/health/" +:+ name) "/") with ("health/" +:+ name).
      by rewrite TrimRight_app.
    + change (healthroutes.TrimLeft ("/health/" +:+ name +:+ "/") "/")
        with (("health/" +:+ name) +:+ "/").
      by rewrite TrimRight_slash, TrimRight_app.
  - intros path first name H. apply Split_two in H as (Heq & _ & Hname).
    split_and!; [| done | done].
    intros ->. unfold healthroutes.Trim in Heq. by apply TrimRight_end in Heq.
  - intros mc heap path rw Hno. unfold healthroutes.handleChainHealth. simpl.
    destruct (healthroutes.Split (healthroutes.Trim path "/") "/"%char)
      as [| first [| name [| ? ?]]] eqn:E; try done.
    destruct (String.eqb first "health") eqn:Ef; [| done].
    apply String.eqb_eq in Ef as ->. by destruct (Hno name).
Qed.

(** X24. For a GET on the health path of a chain, an unknown chain gets 404
    and a registered chain its legacy status, listing the healthy endpoints
    first and then the unhealthy ones, a permutation of the chain's list.
    Without a healthy endpoint the status is 503, proxy is unhealthy, and the
    header that goes out is the one the handler was given: the JSON content
    type is set only after WriteHeader. With a healthy endpoint the status is
    200, with Content-Type application/json, and proxy is healthy. *)
Theorem chain_health_answer mc heap path name hdr :
  healthroutes.Split (healthroutes.Trim path "/") "/"%char = ["health"; name] ->
  let rw := healthroutes.handleChainHealth mc heap "GET" path (fresh hdr) in
  match chains mc !! name with
  | None =>
      rw = healthroutes.Error ("Chain " +:+ name +:+ " not found")
             healthroutes.StatusNotFound (fresh hdr)
  | Some chainConfig =>
      exists v,
        healthroutes.payloads rw = [healthroutes.EncodedHealth v]
        /\ healthroutes.LegacyChain v = name
        /\ healthroutes.LegacyRPCEndpoints v
           = GetHealthyEndpoints mc heap name
             ++ filter (fun p => Healthy (heap !!! p) <> true) (Endpoints chainConfig)
        /\ healthroutes.LegacyRPCEndpoints v ≡ₚ Endpoints chainConfig
        /\ (GetHealthyEndpoints mc heap name = [] ->
            healthroutes.out rw = Some (healthroutes.StatusServiceUnavailable, hdr)
            /\ healthroutes.LegacyProxy v = "unhealthy")
        /\ (GetHealthyEndpoints mc heap name <> [] ->
            healthroutes.out rw
            = Some (http.StatusOK, <["Content-Type" := ["application/json"]]> hdr)
            /\ healthroutes.LegacyProxy v = "healthy")
  end.
Proof.
  intros Hpath rw. subst rw. unfold healthroutes.handleChainHealth.
  cbn [String.eqb Ascii.eqb negb Bool.eqb]. rewrite Hpath.
  change (String.eqb "health" "health") with true. cbn [negb].
  unfold GetChainStatus, GetHealthyEndpoints.
  destruct (chains mc !! name) as [chainConfig |] eqn:Hc; [| reflexivity].
  destruct (getChainHealthStatus_lists heap name chainConfig) as (Hh & Hu & Hcount & _).
  cbn zeta in *. rewrite healthy_foldl. cbn [app].
  set (st := getChainHealthStatus heap name chainConfig) in *.
  rewrite Hcount, Hh, Hu.
  pose proof (filter_split_perm (fun p => Healthy (heap !!! p) = true) (Endpoints chainConfig))
    as Hperm.
  destruct (filter (fun p => Healthy (heap !!! p) = true) (Endpoints chainConfig))
    as [| p healthy] eqn:Ef.
  - eexists. split; [reflexivity |]. cbn. split_and!; try done.
  - eexists. split; [reflexivity |]. cbn. split_and!; try done.
Qed.

Lemma chain_health_answer_witness :
  healthroutes.out (healthroutes.handleChainHealth registry twoEndpoints "GET"
                      "/health/ethereum" (fresh ∅))
  = Some (http.StatusOK, <["Content-Type" := ["application/json"]]> ∅).
Proof.
  pose proof (chain_health_answer registry twoEndpoints "/health/ethereum" "ethereum" ∅
                eq_refl) as H.
  cbn zeta in H.
  change (chains registry !! "ethereum")
    with (Some (mkChainConfig ethereum [0%nat; 1%nat])) in H.
  destruct H as (v & _ & _ & _ & _ & _ & Hup).
  apply Hup. vm_compute. discriminate.
Defined.

(** X25. For a GET the overall health route encodes the result of
    GetMultiChainStatus. When no chain has a healthy endpoint the status is
    503 and the header that goes out lacks the JSON content type, which is set
    only after WriteHeader; when some chain has one the status is 200 with
    Content-Type application/json. This holds as long as the number of chains
    fits a Go int. *)
Theorem multi_chain_health_answer mc heap now hdr :
  Z.of_nat (size (chains mc)) <= maxInt64 ->
  let rw := healthroutes.handleMultiChainHealth mc heap now "GET" (fresh hdr) in
  healthroutes.payloads rw = [healthroutes.EncodedMulti (GetMultiChainStatus mc heap now)]
  /\ ((forall chainName, GetHealthyEndpoints mc heap chainName = []) ->
      healthroutes.out rw = Some (healthroutes.StatusServiceUnavailable, hdr))
  /\ ((exists chainName, GetHealthyEndpoints mc heap chainName <> []) ->
      healthroutes.out rw
      = Some (http.StatusOK, <["Content-Type" := ["application/json"]]> hdr)).
Proof.
  intros Hmax rw. subst rw. unfold healthroutes.handleMultiChainHealth.
  change (negb (String.eqb "GET" "GET")) with false. cbn iota zeta.
  pose proof (healthyChains_zero mc heap now Hmax) as Hzero.
  destruct (HealthyChains (GetMultiChainStatus mc heap now) =? 0) eqn:E.
  - apply Z.eqb_eq in E. split_and!; [reflexivity | reflexivity |].
    intros [name Hh]. destruct Hzero as [Hz _]. by specialize (Hz E name).
  - apply Z.eqb_neq in E. split_and!; [reflexivity | | reflexivity].
    intros Hall. destruct Hzero as [_ Hz]. by specialize (Hz Hall).
Qed.

Lemma multi_chain_health_answer_witness :
  Z.of_nat (size (chains registry)) <= maxInt64
  /\ healthroutes.payloads
       (healthroutes.handleMultiChainHealth registry twoEndpoints 0 "GET" (fresh ∅))
     = [healthroutes.EncodedMulti (GetMultiChainStatus registry twoEndpoints 0)].
Proof.
  assert (H : Z.of_nat (size (chains registry)) <= maxInt64) by (vm_compute; discriminate).
  split; [exact H |].
  exact (proj1 (multi_chain_health_answer registry twoEndpoints 0 ∅ H)).
Defined.

(** The routes answer another method than GET with 405. *)
Lemma health_routes_method mc heap now method path rw :
  method <> "GET" ->
  healthroutes.handleMultiChainHealth mc heap now method rw
  = healthroutes.Error "Method not allowed" http.StatusMethodNotAllowed rw
  /\ healthroutes.handleChainHealth mc heap method path rw
     = healthroutes.Error "Method not allowed" http.StatusMethodNotAllowed rw.
Proof.
  intros Hm%String.eqb_neq.
  unfold healthroutes.handleMultiChainHealth, healthroutes.handleChainHealth.
  by rewrite Hm.
Qed.
